(** * Gengar: the proxy pool, the rotation strategies, the health checker
      and the gateway's request handler, embedded from the Python sources.

    Modelling conventions, used throughout:
    - a Python [int] is a [Z]; a Python [float] (scores, latencies, clock
      readings) is an exact rational [Qc];
    - a Python [str] is a [string] (characters with code point below 256);
    - the proxy dictionary, whose thirteen keys are fixed by
      [_default_proxy], is a record; a partial dictionary over the same
      keys (keyword arguments, a scraped entry) is a record of options;
    - the canonical address [f"{ip}:{port}"] is the pair [(ip, port)]:
      the port is an integer, so [rsplit(":", 1)] recovers the pair;
    - the Redis keys [gengar:proxy:<ip>:<port>] form a finite map from
      addresses to records, the three membership sets are finite sets;
    - the clock and the random source are explicit arguments;
    - a raised exception is the [Raise] outcome of [result];
    - calls follow one another: the store answers each command, and what
      the rotation engine and an upstream answer to the gateway is an
      argument of the handler. *)

From Stdlib Require Import ZArith QArith Qcanon String Ascii List Sorted Lia.
From stdpp Require Import base decidable option numbers list gmap strings.

Local Open Scope Z_scope.

(** ** Exceptions *)

Inductive exn := TypeError | KeyError | IndexError | ValueError.

Inductive result (A : Type) :=
| Ok (a : A)
| Raise (e : exn).
Arguments Ok {A} a.
Arguments Raise {A} e.

Global Instance result_ret : MRet result := fun A a => Ok a.

Global Instance result_bind : MBind result := fun A B k m =>
  match m with
  | Ok a => k a
  | Raise e => Raise e
  end.

Global Instance exn_eq_dec : EqDecision exn.
Proof. solve_decision. Defined.

(** ** pool.py *)

Module Pool.

Abbreviation addr := (string * Z)%type.

Record proxy := Proxy {
  ip : string;
  port : Z;
  protocol : string;
  country : string;
  latency_ms : Qc;
  health_score : Qc;
  last_checked : Qc;
  source : string;
  fail_count : Z;
  success_count : Z;
  total_checks : Z;
  consecutive_fails : Z;
  created_at : Qc
}.

Global Instance proxy_eq_dec : EqDecision proxy.
Proof. solve_decision. Defined.

(** A dictionary that holds some of the thirteen keys: [None] is an absent
    key.  Values are of the key's type, so the entries that
    [add_proxy] filters out with [if v is not None] do not occur. *)
Record fields := Fields {
  f_ip : option string;
  f_port : option Z;
  f_protocol : option string;
  f_country : option string;
  f_latency_ms : option Qc;
  f_health_score : option Qc;
  f_last_checked : option Qc;
  f_source : option string;
  f_fail_count : option Z;
  f_success_count : option Z;
  f_total_checks : option Z;
  f_consecutive_fails : option Z;
  f_created_at : option Qc
}.

Definition no_fields : fields :=
  Fields None None None None None None None None None None None None None.

(** [base.update(overrides)] *)
Definition update (base : proxy) (o : fields) : proxy :=
  {| ip := default (ip base) (f_ip o);
     port := default (port base) (f_port o);
     protocol := default (protocol base) (f_protocol o);
     country := default (country base) (f_country o);
     latency_ms := default (latency_ms base) (f_latency_ms o);
     health_score := default (health_score base) (f_health_score o);
     last_checked := default (last_checked base) (f_last_checked o);
     source := default (source base) (f_source o);
     fail_count := default (fail_count base) (f_fail_count o);
     success_count := default (success_count base) (f_success_count o);
     total_checks := default (total_checks base) (f_total_checks o);
     consecutive_fails :=
       default (consecutive_fails base) (f_consecutive_fails o);
     created_at := default (created_at base) (f_created_at o) |}.

(** Binding [**kw] to a signature [(ip, port, **rest)]: a keyword that
    names a positional parameter already given is a [TypeError]
    ("got multiple values for argument"). *)
Definition bind_kwargs (kw : fields) : result fields :=
  match f_ip kw, f_port kw with
  | None, None => Ok kw
  | _, _ => Raise TypeError
  end.

Definition _default_proxy (now : Qc) (ip : string) (port : Z) (kw : fields)
  : result proxy :=
  overrides ← bind_kwargs kw;
  let base :=
    {| ip := ip; port := port; protocol := "http"; country := EmptyString;
       latency_ms := 0%Qc; health_score := 0%Qc; last_checked := now;
       source := EmptyString; fail_count := 0; success_count := 0;
       total_checks := 0; consecutive_fails := 0; created_at := now |} in
  Ok (update base overrides).

(** *** The store *)

Inductive set_key := POOL_INDEX_KEY | DEAD_SET_KEY | HEALTHY_SET_KEY.

Record config := Config {
  time_based_current_proxy : option proxy;
  time_based_last_rotation : option Qc;
  on_block_current_proxy : option proxy
}.

Record redis := Redis {
  proxies : gmap addr proxy;
  index : gset addr;
  dead : gset addr;
  healthy : gset addr;
  sessions : gmap string (proxy * Z);
  rr_index : option Z;
  cfg : config
}.

Definition empty_redis : redis :=
  Redis ∅ ∅ ∅ ∅ ∅ None (Config None None None).

Definition get (a : addr) (r : redis) : option proxy := proxies r !! a.

Definition set (a : addr) (p : proxy) (r : redis) : redis :=
  Redis (<[a := p]> (proxies r)) (index r) (dead r) (healthy r)
        (sessions r) (rr_index r) (cfg r).

Definition delete (a : addr) (r : redis) : redis :=
  Redis (base.delete a (proxies r)) (index r) (dead r) (healthy r)
        (sessions r) (rr_index r) (cfg r).

Definition smembers (k : set_key) (r : redis) : gset addr :=
  match k with
  | POOL_INDEX_KEY => index r
  | DEAD_SET_KEY => dead r
  | HEALTHY_SET_KEY => healthy r
  end.

Definition with_set (k : set_key) (f : gset addr -> gset addr) (r : redis)
  : redis :=
  match k with
  | POOL_INDEX_KEY =>
      Redis (proxies r) (f (index r)) (dead r) (healthy r)
            (sessions r) (rr_index r) (cfg r)
  | DEAD_SET_KEY =>
      Redis (proxies r) (index r) (f (dead r)) (healthy r)
            (sessions r) (rr_index r) (cfg r)
  | HEALTHY_SET_KEY =>
      Redis (proxies r) (index r) (dead r) (f (healthy r))
            (sessions r) (rr_index r) (cfg r)
  end.

Definition sadd (k : set_key) (a : addr) : redis -> redis :=
  with_set k (fun s => {[a]} ∪ s).

Definition srem (k : set_key) (a : addr) : redis -> redis :=
  with_set k (fun s => s ∖ {[a]}).

Definition delete_set (k : set_key) : redis -> redis :=
  with_set k (fun _ => ∅).

Definition sismember (k : set_key) (a : addr) (r : redis) : bool :=
  bool_decide (a ∈ smembers k r).

Definition scard (k : set_key) (r : redis) : Z :=
  Z.of_nat (size (smembers k r)).

(** A pipeline queues commands and runs them, in order, on [execute]. *)
Inductive command :=
| CSet (a : addr) (p : proxy)
| CDelete (a : addr)
| CSadd (k : set_key) (a : addr)
| CSrem (k : set_key) (a : addr)
| CDeleteSet (k : set_key).

Definition run_command (c : command) : redis -> redis :=
  match c with
  | CSet a p => set a p
  | CDelete a => delete a
  | CSadd k a => sadd k a
  | CSrem k a => srem k a
  | CDeleteSet k => delete_set k
  end.

Definition execute (pipe : list command) (r : redis) : redis :=
  fold_left (fun r c => run_command c r) pipe r.

(** *** Create / update *)

Definition add_proxy (now : Qc) (ip : string) (port : Z) (kw : fields)
    (r : redis) : result (redis * proxy) :=
  kwargs ← bind_kwargs kw;
  let key := (ip, port) in
  proxy ← match get key r with
           | Some existing => Ok (update existing kwargs)
           | None => _default_proxy now ip port kwargs
           end;
  let r := set key proxy r in
  let r := sadd POOL_INDEX_KEY (ip, port) r in
  let r := srem DEAD_SET_KEY (ip, port) r in
  let r := if bool_decide (0 ≤ health_score proxy)%Qc
           then sadd HEALTHY_SET_KEY (ip, port) r else r in
  Ok (r, proxy).

(** [p["ip"]], [p["port"]] *)
Definition subscript {A} (o : option A) : result A :=
  match o with
  | Some v => Ok v
  | None => Raise KeyError
  end.

Fixpoint bulk_add_loop (now : Qc) (ps : list fields) (pipe : list command)
    (count : Z) : result (list command * Z) :=
  match ps with
  | [] => Ok (pipe, count)
  | p :: ps =>
      ip ← subscript (f_ip p);
      port ← subscript (f_port p);
      let addr := (ip, port) in
      let key := (ip, port) in
      proxy ← _default_proxy now ip port p;
      let pipe := (pipe ++ [CSet key proxy; CSadd POOL_INDEX_KEY addr;
                            CSrem DEAD_SET_KEY addr;
                            CSadd HEALTHY_SET_KEY addr])%list in
      bulk_add_loop now ps pipe (count + 1)
  end.

Definition bulk_add (now : Qc) (ps : list fields) (r : redis)
  : result (redis * Z) :=
  '(pipe, count) ← bulk_add_loop now ps [] 0;
  Ok (execute pipe r, count).

(** *** Read *)

Definition get_proxy (ip : string) (port : Z) (r : redis) : option proxy :=
  get (ip, port) r.


(** The sort key [(-health_score, latency_ms)], compared as tuples. *)
Definition sort_key (p : proxy) : Qc * Qc :=
  ((- health_score p)%Qc, latency_ms p).

Definition key_le (a b : Qc * Qc) : Prop :=
  (a.1 < b.1)%Qc ∨ (a.1 = b.1 ∧ (a.2 ≤ b.2)%Qc).

Global Instance key_le_dec : RelDecision key_le.
Proof. intros a b. unfold key_le. apply _. Defined.

(** [list.sort] is stable: an element is placed before the first one
    whose key is not smaller. *)
Fixpoint insert_sorted (x : proxy) (l : list proxy) : list proxy :=
  match l with
  | [] => [x]
  | y :: l' =>
      if decide (key_le (sort_key x) (sort_key y)) then x :: l
      else y :: insert_sorted x l'
  end.

Definition sort (l : list proxy) : list proxy := foldr insert_sorted [] l.

(** The early [return []] on an empty set gives the list the general
    path gives; the iteration order of the set is that of [elements]. *)
Definition get_healthy_proxies (min_score : Qc) (r : redis) : list proxy :=
  let members := elements (smembers HEALTHY_SET_KEY r) in
  let results := (fun m => get m r) <$> members in
  let healthy :=
    filter (fun p => (min_score ≤ health_score p)%Qc) (omap id results) in
  sort healthy.

Definition pool_size (r : redis) : Z := scard POOL_INDEX_KEY r.

Definition healthy_count (r : redis) : Z :=
  Z.max (scard POOL_INDEX_KEY r - scard DEAD_SET_KEY r) 0.

Definition dead_count (r : redis) : Z := scard DEAD_SET_KEY r.

(** *** Health / scoring *)

(** [(success / total) * 100 if total else 0] *)
Definition score (success total : Z) : Qc :=
  if decide (total = 0) then 0%Qc
  else (Qc_of_Z success / Qc_of_Z total * Qc_of_Z 100)%Qc.

(** [record_success] and [record_failure] return [{}] when the key is
    missing; that empty dictionary is [None] here. *)
Definition record_success (now : Qc) (ip : string) (port : Z)
    (latency : Qc) (r : redis) : redis * option proxy :=
  let key := (ip, port) in
  match get key r with
  | None => (r, None)
  | Some proxy =>
      let success := success_count proxy + 1 in
      let total := total_checks proxy + 1 in
      let proxy :=
        {| ip := Pool.ip proxy; port := Pool.port proxy;
           protocol := protocol proxy; country := country proxy;
           latency_ms := latency;
           health_score := score success total;
           last_checked := now; source := source proxy;
           fail_count := fail_count proxy; success_count := success;
           total_checks := total; consecutive_fails := 0;
           created_at := created_at proxy |} in
      let r := set key proxy r in
      let r := sadd HEALTHY_SET_KEY (ip, port) r in
      let r := srem DEAD_SET_KEY (ip, port) r in
      (r, Some proxy)
  end.

Definition mark_dead (ip : string) (port : Z) (r : redis) : redis :=
  let addr := (ip, port) in
  let r := sadd DEAD_SET_KEY addr r in
  srem HEALTHY_SET_KEY addr r.

Definition record_failure (now : Qc) (ip : string) (port : Z) (r : redis)
  : redis * option proxy :=
  let key := (ip, port) in
  match get key r with
  | None => (r, None)
  | Some proxy =>
      let total := total_checks proxy + 1 in
      let proxy :=
        {| ip := Pool.ip proxy; port := Pool.port proxy;
           protocol := protocol proxy; country := country proxy;
           latency_ms := latency_ms proxy;
           health_score := score (success_count proxy) total;
           last_checked := now; source := source proxy;
           fail_count := fail_count proxy + 1;
           success_count := success_count proxy;
           total_checks := total;
           consecutive_fails := consecutive_fails proxy + 1;
           created_at := created_at proxy |} in
      let r := set key proxy r in
      let r := if bool_decide (3 ≤ consecutive_fails proxy)
               then mark_dead ip port r else r in
      (r, Some proxy)
  end.

Definition remove_proxy (ip : string) (port : Z) (r : redis) : redis :=
  let addr := (ip, port) in
  let key := (ip, port) in
  execute [CDelete key; CSrem POOL_INDEX_KEY addr;
           CSrem DEAD_SET_KEY addr; CSrem HEALTHY_SET_KEY addr] r.

Definition flush_dead (r : redis) : redis * Z :=
  let dead := elements (smembers DEAD_SET_KEY r) in
  match dead with
  | [] => (r, 0)
  | _ =>
      let pipe :=
        (flat_map (fun addr => [CDelete addr; CSrem POOL_INDEX_KEY addr])
                  dead ++ [CDeleteSet DEAD_SET_KEY])%list in
      (execute pipe r, Z.of_nat (length dead))
  end.

End Pool.

(** ** strategies.py *)

Module Strategies.
Import Pool.

(** The recognised keys of the [context] dictionary; [None] is an absent
    key (or, for [session_id], the value [None]). *)
Record context := Context {
  session_id : option string;
  target_domain : option string;
  session_ttl : option Z;
  rotation_interval : option Z
}.

(** One draw of the random source: [random()] in the unit interval and
    the bits behind [_randbelow]. *)
Record random := Random {
  random_float : Qc;
  random_bits : nat
}.

(** [random.choice(seq)] is [seq[_randbelow(len(seq))]]; an empty
    sequence is an [IndexError]. *)
Definition choice {A} (rnd : random) (seq : list A) : result A :=
  match seq !! (random_bits rnd mod length seq)%nat with
  | Some x => Ok x
  | None => Raise IndexError
  end.

Fixpoint accumulate (acc : Qc) (ws : list Qc) : list Qc :=
  match ws with
  | [] => []
  | w :: ws => (acc + w)%Qc :: accumulate (acc + w)%Qc ws
  end.

(** [bisect(a, x, 0, hi)] on a non-decreasing [a]: how many of the first
    [hi] entries are at most [x]. *)
Definition bisect (a : list Qc) (x : Qc) (hi : nat) : nat :=
  length (filter (fun c => (c ≤ x)%Qc) (take hi a)).

(** [random.choices(population, weights=weights, k=1)[0]] *)
Definition choices {A} (rnd : random) (population : list A)
    (weights : list Qc) : result A :=
  let cum_weights := accumulate 0%Qc weights in
  let total := List.last cum_weights 0%Qc in
  if decide (total ≤ 0)%Qc then Raise ValueError
  else
    let hi := (length population - 1)%nat in
    match population !! bisect cum_weights (random_float rnd * total)%Qc hi
    with
    | Some x => Ok x
    | None => Raise IndexError
    end.

Definition Qcmax (a b : Qc) : Qc := if decide (a < b)%Qc then b else a.

(** Truth value of an optional string: [None] and the empty string are false. *)
Definition truthy (s : option string) : option string :=
  match s with
  | Some EmptyString => None
  | other => other
  end.

Definition get_session_proxy (sid : string) (r : redis) : option proxy :=
  fst <$> sessions r !! sid.

Definition set_session_proxy (sid : string) (p : proxy) (ttl : Z) (r : redis)
  : redis :=
  Redis (proxies r) (index r) (dead r) (healthy r)
        (<[sid := (p, ttl)]> (sessions r)) (rr_index r) (cfg r).

Definition get_rr_index (r : redis) : Z := default 0 (rr_index r).

Definition set_rr_index (idx : Z) (r : redis) : redis :=
  Redis (proxies r) (index r) (dead r) (healthy r)
        (sessions r) (Some idx) (cfg r).

Definition set_config (f : config -> config) (r : redis) : redis :=
  Redis (proxies r) (index r) (dead r) (healthy r)
        (sessions r) (rr_index r) (f (cfg r)).

Definition is_dead (p : proxy) (r : redis) : bool :=
  sismember DEAD_SET_KEY (ip p, port p) r.

(** [seq[i]] for a Python list and an integer subscript. *)
Definition getitem {A} (seq : list A) (i : Z) : result A :=
  let n := Z.of_nat (length seq) in
  let j := if decide (i < 0) then i + n else i in
  if decide (0 ≤ j < n)
  then match seq !! Z.to_nat j with
       | Some x => Ok x
       | None => Raise IndexError
       end
  else Raise IndexError.

Definition PerRequestStrategy_select (rnd : random) (ctx : context)
    (r : redis) : result (redis * option proxy) :=
  let proxies := get_healthy_proxies 0%Qc r in
  match proxies with
  | [] => Ok (r, None)
  | _ =>
      let weights :=
        (fun p => Qcmax (health_score p) 1%Qc) <$> proxies in
      proxy ← choices rnd proxies weights;
      Ok (r, Some proxy)
  end.

Definition PerSessionStrategy_select (rnd : random) (ctx : context)
    (r : redis) : result (redis * option proxy) :=
  let sid := truthy (session_id ctx) in
  let ttl := default 300 (session_ttl ctx) in
  let cached :=
    match sid with
    | Some s =>
        match get_session_proxy s r with
        | Some cached => if is_dead cached r then None else Some cached
        | None => None
        end
    | None => None
    end in
  match cached with
  | Some cached => Ok (r, Some cached)
  | None =>
      let proxies := get_healthy_proxies 0%Qc r in
      match proxies with
      | [] => Ok (r, None)
      | _ =>
          proxy ← choice rnd proxies;
          let r := match sid with
                   | Some s => set_session_proxy s proxy ttl r
                   | None => r
                   end in
          Ok (r, Some proxy)
      end
  end.

Definition TimeBasedStrategy_select (now : Qc) (rnd : random)
    (ctx : context) (r : redis) : result (redis * option proxy) :=
  let interval := default 30 (rotation_interval ctx) in
  let last_rotation := default 0%Qc (time_based_last_rotation (cfg r)) in
  let current_raw := time_based_current_proxy (cfg r) in
  let kept :=
    match current_raw with
    | Some current =>
        if bool_decide (now - last_rotation < Qc_of_Z interval)%Qc
        then if is_dead current r then None else Some current
        else None
    | None => None
    end in
  match kept with
  | Some current => Ok (r, Some current)
  | None =>
      let proxies := get_healthy_proxies 0%Qc r in
      match proxies with
      | [] => Ok (r, None)
      | _ =>
          proxy ← choice rnd proxies;
          let r := set_config (fun c =>
                     Config (Some proxy) (time_based_last_rotation c)
                            (on_block_current_proxy c)) r in
          let r := set_config (fun c =>
                     Config (time_based_current_proxy c) (Some now)
                            (on_block_current_proxy c)) r in
          Ok (r, Some proxy)
      end
  end.

Definition OnBlockStrategy_select (ctx : context) (r : redis)
  : result (redis * option proxy) :=
  let current := on_block_current_proxy (cfg r) in
  let kept :=
    match current with
    | Some current => if is_dead current r then None else Some current
    | None => None
    end in
  match kept with
  | Some current => Ok (r, Some current)
  | None =>
      let proxies := get_healthy_proxies 0%Qc r in
      match proxies with
      | [] => Ok (r, None)
      | proxy :: _ =>
          let r := set_config (fun c =>
                     Config (time_based_current_proxy c)
                            (time_based_last_rotation c) (Some proxy)) r in
          Ok (r, Some proxy)
      end
  end.

Definition RoundRobinStrategy_select (ctx : context) (r : redis)
  : result (redis * option proxy) :=
  let proxies := get_healthy_proxies 0%Qc r in
  match proxies with
  | [] => Ok (r, None)
  | _ =>
      let idx := get_rr_index r in
      let idx := if decide (Z.of_nat (length proxies) ≤ idx) then 0
                 else idx in
      proxy ← getitem proxies idx;
      let r := set_rr_index (idx + 1) r in
      Ok (r, Some proxy)
  end.

(** The five strategies behind the one [select] interface. *)
Inductive strategy :=
| PerRequestStrategy
| PerSessionStrategy
| TimeBasedStrategy
| OnBlockStrategy
| RoundRobinStrategy.

Definition name (s : strategy) : string :=
  match s with
  | PerRequestStrategy => "per-request"
  | PerSessionStrategy => "per-session"
  | TimeBasedStrategy => "time-based"
  | OnBlockStrategy => "on-block"
  | RoundRobinStrategy => "round-robin"
  end.

Definition select (s : strategy) (now : Qc) (rnd : random) (ctx : context)
    (r : redis) : result (redis * option proxy) :=
  match s with
  | PerRequestStrategy => PerRequestStrategy_select rnd ctx r
  | PerSessionStrategy => PerSessionStrategy_select rnd ctx r
  | TimeBasedStrategy => TimeBasedStrategy_select now rnd ctx r
  | OnBlockStrategy => OnBlockStrategy_select ctx r
  | RoundRobinStrategy => RoundRobinStrategy_select ctx r
  end.

End Strategies.

(** ** health_checker.py *)

Module HealthChecker.
Import Pool.

(** *** [_PoolAdapter] *)

Definition get_proxy (ip : string) (port : Z) (r : redis) : option proxy :=
  get (ip, port) r.

Definition save_proxy (p : proxy) (r : redis) : redis :=
  let addr := (ip p, port p) in
  let key := addr in
  let r := set key p r in
  if decide (consecutive_fails p = 0)
  then srem DEAD_SET_KEY addr (sadd HEALTHY_SET_KEY addr r)
  else r.

Definition mark_dead (ip : string) (port : Z) (r : redis) : redis :=
  let addr := (ip, port) in
  srem HEALTHY_SET_KEY addr (sadd DEAD_SET_KEY addr r).

Definition remove_proxy (ip : string) (port : Z) (r : redis) : redis :=
  let addr := (ip, port) in
  execute [CDelete addr; CSrem POOL_INDEX_KEY addr;
           CSrem DEAD_SET_KEY addr; CSrem HEALTHY_SET_KEY addr] r.

Definition is_dead (ip : string) (port : Z) (r : redis) : bool :=
  sismember DEAD_SET_KEY (ip, port) r.

(** What the probe through the proxy gave: a 200 whose JSON body has an
    ["origin"] key, with [round(elapsed_ms, 1)]; or anything else
    (timeout, transport error, other status, no ["origin"]). *)
Inductive probe :=
| Pass (latency : Qc)
| Fail.

(** The record after the field updates of a failed check. *)
Definition failed (now : Qc) (existing : proxy) : proxy :=
  let total := total_checks existing + 1 in
  {| ip := ip existing; port := port existing;
     protocol := protocol existing; country := country existing;
     latency_ms := latency_ms existing;
     health_score := score (success_count existing) total;
     last_checked := now; source := source existing;
     fail_count := fail_count existing + 1;
     success_count := success_count existing;
     total_checks := total;
     consecutive_fails := consecutive_fails existing + 1;
     created_at := created_at existing |}.

(** The record after the field updates of a passed check. *)
Definition passed (now latency : Qc) (existing : proxy) : proxy :=
  let success := success_count existing + 1 in
  let total := total_checks existing + 1 in
  {| ip := ip existing; port := port existing;
     protocol := protocol existing; country := country existing;
     latency_ms := latency;
     health_score := score success total;
     last_checked := now; source := source existing;
     fail_count := fail_count existing;
     success_count := success;
     total_checks := total;
     consecutive_fails := 0;
     created_at := created_at existing |}.

Definition check_single_proxy (now : Qc) (outcome : probe) (p : proxy)
    (r : redis) : redis * bool :=
  let ip := Pool.ip p in
  let port := Pool.port p in
  match outcome with
  | Pass latency =>
      match get_proxy ip port r with
      | Some existing => (save_proxy (passed now latency existing) r, true)
      | None => (r, true)
      end
  | Fail =>
      match get_proxy ip port r with
      | Some existing =>
          let existing := failed now existing in
          let r := save_proxy existing r in
          if bool_decide (3 ≤ consecutive_fails existing)
          then (remove_proxy ip port r, false)
          else (mark_dead ip port r, false)
      | None => (r, false)
      end
  end.

End HealthChecker.

(** ** handler.py *)

Module Gateway.

Definition BLOCK_STATUS_CODES : list Z := [403; 429; 503; 407].

Definition BLOCK_PATTERNS : list string :=
  ["cloudflare"; "captcha"; "access denied"; "blocked"; "unusual traffic";
   "rate limit"; "banned"; "forbidden"]%string.

Definition CHALLENGE_URL_PATTERNS : list string :=
  ["/cdn-cgi/challenge"; "/challenge"; "captcha"; "recaptcha"]%string.

Definition MAX_RETRIES : Z := 3.

(** Lower-casing of a character with code point below 256.  On these
    characters [re.IGNORECASE] matches a letter of a pattern against
    itself and its other case only. *)
Definition lower (c : ascii) : ascii :=
  let n := nat_of_ascii c in
  if ((65 <=? n) && (n <=? 90)
      || (192 <=? n) && (n <=? 222) && negb (n =? 215))%nat
  then ascii_of_nat (n + 32) else c.

(** The patterns are literal texts compiled with [re.IGNORECASE]:
    [match_here] is a match anchored at the start of [text], [search] a
    match at any position. *)
Fixpoint match_here (pattern text : string) : bool :=
  match pattern, text with
  | EmptyString, _ => true
  | String p pattern', String c text' =>
      if decide (lower c = lower p) then match_here pattern' text' else false
  | String _ _, EmptyString => false
  end.

Fixpoint search (pattern text : string) : bool :=
  match_here pattern text
  || match text with
     | EmptyString => false
     | String _ text' => search pattern text'
     end.

(** [s[:n]] *)
Fixpoint slice_to (n : nat) (s : string) : string :=
  match n, s with
  | O, _ => EmptyString
  | S n', String c s' => String c (slice_to n' s')
  | S _, EmptyString => EmptyString
  end.

Definition is_blocked (status_code : Z) (body : string)
    (redirect_url : option string) : bool :=
  if bool_decide (status_code ∈ BLOCK_STATUS_CODES) then true
  else if existsb (fun pattern => search pattern (slice_to 5000 body))
                  BLOCK_PATTERNS then true
  else match Strategies.truthy redirect_url with
       | Some url =>
           existsb (fun pattern => search pattern url)
                   CHALLENGE_URL_PATTERNS
       | None => false
       end.

(** *** Request handling *)

(** A [dict] of headers, in insertion order. *)
Definition headers : Type := list (string * string).

Fixpoint dict_get (k : string) (d : headers) : option string :=
  match d with
  | [] => None
  | (k', v) :: d' => if decide (k' = k) then Some v else dict_get k d'
  end.

Fixpoint str_lower (s : string) : string :=
  match s with
  | EmptyString => EmptyString
  | String c s' => String (lower c) (str_lower s')
  end.

Record response := Response {
  status_code : Z;
  resp_headers : headers;
  content : string
}.

(** What [client.request] did: it returned, or raised. *)
Inductive upstream :=
| Responded (resp : response)
| TimeoutException
| OtherException (msg : string).

(** The answer of the rotation engine to [/next-proxy]. *)
Record proxy_info := ProxyInfo {
  pi_ip : string;
  pi_port : Z;
  pi_strategy : option string
}.

(** What the outside answers during one attempt. *)
Record attempt_io := AttemptIO {
  next_proxy : option proxy_info;
  forwarded : upstream;
  elapsed_ms : Qc;
  ts : Qc
}.

Record log_entry := LogEntry {
  log_ts : Qc;
  log_method : string;
  log_url : string;
  log_target_domain : string;
  log_proxy_ip : string * Z;
  log_status : Z;
  log_latency_ms : Qc;
  log_blocked : bool;
  log_attempt : Z;
  log_strategy : string;
  log_error : string;
  log_response_headers : headers
}.

(** The calls the handler makes, in order. *)
Inductive event :=
| GetNextProxy (session_id : option string) (target_domain : string)
| Forward (proxy_url : string * Z) (method url : string)
          (req_headers : headers) (body : option string)
| LogRequest (entry : log_entry)
| MarkProxyBlocked (ip : string) (port : Z) (target_domain : string).

(** The list [gengar:request_log] and the topic [gengar:live_requests]. *)
Record live := Live {
  request_log : list log_entry;
  live_requests : list log_entry
}.

Definition log_request_to_redis (entry : log_entry) (l : live) : live :=
  let log := entry :: request_log l in
  let log := take 500 log in
  Live log (live_requests l ++ [entry]).

(** The [return] statement that ended the call. *)
Inductive exit :=
| NoHealthyProxies
| BlockedLastAttempt
| Success
| RetriesExhausted.

Record outcome := Outcome {
  returned_at : exit;
  reply : Z * headers * string;
  calls : list event;
  store : live
}.

(** The JSON text of [{"error": msg}]; [dquote] is the quotation mark. *)
Definition dquote : string := String (ascii_of_nat 34) EmptyString.

Definition error_body (msg : string) : string :=
  ("{" ++ dquote ++ "error" ++ dquote ++ ": " ++ dquote ++ msg ++ dquote
   ++ "}")%string.

Definition range (lo hi : Z) : list Z :=
  (fun i => lo + Z.of_nat i) <$> seq 0 (Z.to_nat (hi - lo)).

Section handle.

(** [bytes.decode("utf-8", errors="ignore")] and [urlparse(url).hostname]
    (the empty string when there is none) belong to the standard library. *)
Variable decode : string -> string.
Variable _extract_domain : string -> string.

Variables (method url : string) (hdrs : headers) (body : option string).

(** What the world answers at attempt [a]. *)
Variable io : Z -> attempt_io.

Definition hop_by_hop : list string :=
  ["host"; "proxy-authorization"; "proxy-connection"; "x-session-id"]%string.

Fixpoint attempts (todo : list Z) (calls : list event) (l : live)
  : outcome :=
  let session_id := dict_get "x-session-id" hdrs in
  let target_domain := _extract_domain url in
  match todo with
  | [] =>
      Outcome RetriesExhausted
              (502, [], error_body "all retries exhausted")
              calls l
  | attempt :: todo =>
      let calls := calls ++ [GetNextProxy session_id target_domain] in
      match next_proxy (io attempt) with
      | None =>
          Outcome NoHealthyProxies
            (502, [], error_body "no healthy proxies available")
            calls l
      | Some info =>
          let proxy_ip := pi_ip info in
          let proxy_port := pi_port info in
          let strategy_used :=
            default "unknown"%string (pi_strategy info) in
          let req_headers :=
            filter (fun kv => str_lower kv.1 ∉ hop_by_hop) hdrs in
          let calls :=
            calls ++ [Forward (proxy_ip, proxy_port) method url
                              req_headers body] in
          let '(status, rheaders, rbody, blocked, error_msg) :=
            match forwarded (io attempt) with
            | Responded resp =>
                let redirect_url := dict_get "location" (resp_headers resp) in
                let body_text := decode (content resp) in
                (status_code resp, resp_headers resp, content resp,
                 is_blocked (status_code resp) body_text redirect_url,
                 EmptyString)
            | TimeoutException =>
                (502, [], EmptyString, true, "timeout"%string)
            | OtherException msg =>
                (502, [], EmptyString, true, msg)
            end in
          let log_entry :=
            {| log_ts := ts (io attempt);
               log_method := method;
               log_url := url;
               log_target_domain := target_domain;
               log_proxy_ip := (proxy_ip, proxy_port);
               log_status := status;
               log_latency_ms := elapsed_ms (io attempt);
               log_blocked := blocked;
               log_attempt := attempt;
               log_strategy := strategy_used;
               log_error := error_msg;
               log_response_headers := take 20 rheaders |} in
          let calls := calls ++ [LogRequest log_entry] in
          let l := log_request_to_redis log_entry l in
          if blocked then
            let calls :=
              calls ++ [MarkProxyBlocked proxy_ip proxy_port
                                         target_domain] in
            if decide (attempt < MAX_RETRIES)
            then attempts todo calls l
            else Outcome BlockedLastAttempt (status, rheaders, rbody)
                         calls l
          else Outcome Success (status, rheaders, rbody) calls l
      end
  end.

Definition handle_http_request (l : live) : outcome :=
  attempts (range 1 (MAX_RETRIES + 1)) [] l.

End handle.

End Gateway.

(** ** Sequences of pool operations *)

Module Ops.
Import Pool.

(** A call of one of the pool's mutating operations, with the clock
    reading it makes. *)
Inductive op :=
| Add (now : Qc) (ip : string) (port : Z) (kw : fields)
| BulkAdd (now : Qc) (ps : list fields)
| RecordSuccess (now : Qc) (ip : string) (port : Z) (latency : Qc)
| RecordFailure (now : Qc) (ip : string) (port : Z)
| MarkDead (ip : string) (port : Z)
| Remove (ip : string) (port : Z)
| FlushDead.

(** The store after the call; a call that raises leaves the store as it
    was (both [add_proxy] and [bulk_add] raise before their first write). *)
Definition step (o : op) (r : redis) : redis :=
  match o with
  | Add now ip port kw =>
      match add_proxy now ip port kw r with
      | Ok (r', _) => r'
      | Raise _ => r
      end
  | BulkAdd now ps =>
      match bulk_add now ps r with
      | Ok (r', _) => r'
      | Raise _ => r
      end
  | RecordSuccess now ip port latency =>
      (record_success now ip port latency r).1
  | RecordFailure now ip port => (record_failure now ip port r).1
  | MarkDead ip port => mark_dead ip port r
  | Remove ip port => remove_proxy ip port r
  | FlushDead => (flush_dead r).1
  end.

Definition run (ops : list op) (r : redis) : redis :=
  fold_left (fun r o => step o r) ops r.

(** The invariants of the data model. *)
Definition healthy_ok (r : redis) : Prop :=
  forall a, a ∈ healthy r -> a ∈ index r /\ a ∉ dead r.

Definition dead_ok (r : redis) : Prop :=
  forall a, a ∈ dead r -> a ∈ index r /\ a ∉ healthy r.

Definition record_ok (p : proxy) : Prop :=
  success_count p + fail_count p = total_checks p
  /\ (0 ≤ health_score p)%Qc /\ (health_score p ≤ Qc_of_Z 100)%Qc.

Definition records_ok (r : redis) : Prop :=
  forall a p, proxies r !! a = Some p -> record_ok p.

Definition pool_invariant (r : redis) : Prop :=
  healthy_ok r /\ dead_ok r /\ records_ok r.

(** A record as the pool itself produces them: counters that count. *)
Definition counted (p : proxy) : Prop :=
  0 ≤ success_count p /\ 0 ≤ fail_count p /\ record_ok p.

(** The calls that keep to the data model: [add] writes a counted
    record, [mark_dead] names a proxy of the index. *)
Definition in_model (r : redis) (o : op) : Prop :=
  match o with
  | Add now ip port kw =>
      match add_proxy now ip port kw r with
      | Ok (_, p) => counted p
      | Raise _ => True
      end
  | MarkDead ip port => (ip, port) ∈ index r
  | _ => True
  end.

(** Every stored record is listed in the index and is counted. *)
Definition indexed (r : redis) : Prop :=
  forall a, is_Some (proxies r !! a) -> a ∈ index r.

Definition all_counted (r : redis) : Prop :=
  forall a p, proxies r !! a = Some p -> counted p.

Definition well_formed (r : redis) : Prop :=
  healthy_ok r /\ dead_ok r /\ indexed r /\ all_counted r.

(** The stores reached from the empty pool by such calls. *)
Inductive reachable : redis -> Prop :=
| reach_empty : reachable empty_redis
| reach_step r o : reachable r -> in_model r o -> reachable (step o r).

End Ops.

(** ** What a strategy holds on to *)

Module Selecting.
Import Pool Strategies.

(** [select] returned [None]. *)
Definition returns_none (res : result (redis * option proxy)) : Prop :=
  exists r', res = Ok (r', None).

(** The proxy a strategy reads back before it looks at the healthy list:
    the session's pin, the persisted current proxy of time-based while
    the rotation interval has not elapsed, the persisted current proxy of
    on-block.  Per-request and round-robin read none. *)
Definition cached_proxy (s : strategy) (now : Qc) (ctx : context)
    (r : redis) : option proxy :=
  match s with
  | PerSessionStrategy =>
      match truthy (session_id ctx) with
      | Some sid => get_session_proxy sid r
      | None => None
      end
  | TimeBasedStrategy =>
      if bool_decide
           (now - default 0%Qc (time_based_last_rotation (cfg r))
            < Qc_of_Z (default 30 (rotation_interval ctx)))%Qc
      then time_based_current_proxy (cfg r)
      else None
  | OnBlockStrategy => on_block_current_proxy (cfg r)
  | PerRequestStrategy | RoundRobinStrategy => None
  end.

(** That proxy exists and its address is not in the dead set. *)
Definition holds_live_proxy (s : strategy) (now : Qc) (ctx : context)
    (r : redis) : Prop :=
  exists p, cached_proxy s now ctx r = Some p /\ is_dead p r = false.


End Selecting.

(** ** Block detection, in the words of the specification *)

Module Blocking.
Import Gateway.



End Blocking.

(** ** Reading the handler's calls *)

Module Calls.
Import Gateway.

(** The [mark-block] notifications among the calls, in order. *)
Definition mark_block_calls (calls : list event)
  : list (string * Z * string) :=
  omap (fun e => match e with
                 | MarkProxyBlocked ip port domain => Some (ip, port, domain)
                 | _ => None
                 end) calls.

(** The entries handed to [log_request_to_redis], in order. *)
Definition log_calls (calls : list event) : list log_entry :=
  omap (fun e => match e with
                 | LogRequest entry => Some entry
                 | _ => None
                 end) calls.

(** The upstream answered, and the answer is classified as blocked. *)
Definition blocked_response (decode : string -> string) (resp : response)
  : Prop :=
  is_blocked (status_code resp) (decode (content resp))
             (dict_get "location" (resp_headers resp)) = true.

End Calls.

(** ** Sample data *)

Module Samples.
Import Pool.

(** A scraped entry: only the address. *)
Definition entry_1234 : fields :=
  Fields (Some "1.2.3.4"%string) (Some 8080) None None None None None None
         None None None None None.

(** A proxy that has never been checked. *)
Definition fresh_1111 : proxy :=
  Proxy "1.1.1.1" 8080 "http" EmptyString 0%Qc 0%Qc 0%Qc EmptyString
        0 0 0 0 0%Qc.

(** The keyword arguments of the test suite's [_make_proxy]:
    eight successes, no failure, ten checks, score 90. *)
Definition make_proxy_fields : fields :=
  Fields None None (Some "http"%string) (Some "US"%string)
         (Some (Qc_of_Z 100)) (Some (Qc_of_Z 90)) (Some 0%Qc)
         (Some "test"%string) (Some 0) (Some 8) (Some 10) (Some 0)
         (Some 0%Qc).

(** Keyword arguments whose counters add up, with a negative one. *)
Definition negative_fields : fields :=
  Fields None None None None None (Some (Qc_of_Z 100)) None None
         (Some (-2)) (Some 4) (Some 2) None None.

(** The pool of scenario S2. *)
Definition proxy_1111 : proxy :=
  Proxy "1.1.1.1" 8080 "http" "US" (Qc_of_Z 100) (Qc_of_Z 90) 0%Qc "test"
        0 0 0 0 0%Qc.

Definition proxy_2222 : proxy :=
  Proxy "2.2.2.2" 3128 "http" "US" (Qc_of_Z 200) (Qc_of_Z 80) 0%Qc "test"
        0 0 0 0 0%Qc.

Definition pool_S2 : redis :=
  sadd HEALTHY_SET_KEY ("2.2.2.2"%string, 3128)
    (sadd HEALTHY_SET_KEY ("1.1.1.1"%string, 8080)
       (set ("2.2.2.2"%string, 3128) proxy_2222
          (set ("1.1.1.1"%string, 8080) proxy_1111 empty_redis))).

Definition no_context : Strategies.context :=
  Strategies.Context None None None None.

Definition some_random : Strategies.random := Strategies.Random 0%Qc 0.

(** An upstream that answers 403 through 9.9.9.9:3128 at every
    attempt. *)
Definition forbidden : Gateway.response :=
  Gateway.Response 403 [("content-type", "text/html")]%string "no".

Definition always_403 (attempt : Z) : Gateway.attempt_io :=
  Gateway.AttemptIO (Some (Gateway.ProxyInfo "9.9.9.9" 3128 None))
                    (Gateway.Responded forbidden) 1%Qc 0%Qc.

End Samples.

(** ** More of the pool's data model *)

Module PoolProps.
Import Pool.

(** Every record is stored under its own address: [(ip, port)] is
    unique across the pool. *)
Definition keyed (r : redis) : Prop :=
  forall a p, proxies r !! a = Some p -> a = (ip p, port p).

(** An address [b] is untouched between two stores. *)
Definition same_at (b : addr) (r r' : redis) : Prop :=
  proxies r' !! b = proxies r !! b
  /\ (b ∈ index r' <-> b ∈ index r)
  /\ (b ∈ dead r' <-> b ∈ dead r)
  /\ (b ∈ healthy r' <-> b ∈ healthy r).

End PoolProps.

(** ** Selections in a row *)

Module Rounds.
Import Pool Strategies.

(** [k] round-robin selections, one after the other; the proxies they
    return, in order. *)
Fixpoint round_robin_many (k : nat) (ctx : context) (r : redis)
  : result (redis * list (option proxy)) :=
  match k with
  | O => Ok (r, [])
  | S k' =>
      '(r1, p) ← RoundRobinStrategy_select ctx r;
      '(r2, ps) ← round_robin_many k' ctx r1;
      Ok (r2, p :: ps)
  end.

(** The position the cursor [i] stands for in a list of length [n]. *)
Definition start (n : nat) (i : Z) : nat :=
  if decide (Z.of_nat n ≤ i) then 0%nat else Z.to_nat i.

End Rounds.

(** ** More sample data *)

Module MoreSamples.
Import Pool Ops.

(** Two proxies added, the first marked dead and failed once. *)
Definition pool_two : redis :=
  step (RecordFailure 1%Qc "1.1.1.1" 8080)
    (step (MarkDead "1.1.1.1" 8080)
       (step (Add 1%Qc "2.2.2.2" 3128 no_fields)
          (step (Add 1%Qc "1.1.1.1" 8080 no_fields) empty_redis))).


(** The pool of scenario S2 with 1.1.1.1:8080 persisted by on-block. *)
Definition pool_S2_on_block : redis :=
  Strategies.set_config
    (fun c => Config (time_based_current_proxy c)
                     (time_based_last_rotation c)
                     (Some Samples.proxy_1111)) Samples.pool_S2.

End MoreSamples.
(** ** main.py of the rotation engine *)

Module Engine.
Import Pool Strategies.

(** A stored domain override: the JSON object the API server writes,
    with a ["strategy"] and a ["country"] key, each of which may be
    missing. *)
Record override := Override {
  ov_strategy : option string;
  ov_country : option string
}.

(** The store as the endpoints see it: the pool, the three
    [gengar:config:*] keys the endpoints read and write, the hash
    [gengar:domain_overrides] and the hash [gengar:stats]. *)
Record engine := Engine {
  pool : redis;
  rotation_strategy : option string;
  config_session_ttl : option Z;
  config_rotation_interval : option Z;
  domain_overrides : gmap string override;
  stats : gmap string Z
}.

Definition with_pool (r : redis) (e : engine) : engine :=
  Engine r (rotation_strategy e) (config_session_ttl e)
         (config_rotation_interval e) (domain_overrides e) (stats e).


Definition get_domain_override (domain : string) (e : engine)
  : option override :=
  domain_overrides e !! domain.

Definition STRATEGY_MAP : list (string * strategy) :=
  [("per-request"%string, PerRequestStrategy);
   ("per-session"%string, PerSessionStrategy);
   ("time-based"%string, TimeBasedStrategy);
   ("on-block"%string, OnBlockStrategy);
   ("round-robin"%string, RoundRobinStrategy)].

(** [d.get(k)] on a dictionary given by its items. *)
Fixpoint dict_get {A} (k : string) (d : list (string * A)) : option A :=
  match d with
  | [] => None
  | (k', v) :: d' => if decide (k' = k) then Some v else dict_get k d'
  end.

Definition _get_strategy (e : engine) : strategy :=
  let name := default "per-request"%string (rotation_strategy e) in
  default PerRequestStrategy (dict_get name STRATEGY_MAP).

(** *** Requests and replies *)

Record NextProxyRequest := {
  req_session_id : option string;
  req_target_domain : option string
}.


Record StrategyUpdate := {
  su_strategy : string;
  su_session_ttl : option Z;
  su_rotation_interval : option Z
}.

(** An endpoint returns its body or raises an [HTTPException]. *)
Inductive http (A : Type) :=
| Returned (body : A)
| HTTPException (status_code : Z) (detail : string).
Arguments Returned {A} body.
Arguments HTTPException {A} status_code detail.

Record next_proxy_body := NextProxyBody {
  np_ip : string;
  np_port : Z;
  np_protocol : string;
  np_health_score : Qc;
  np_latency_ms : Qc
}.

(** Truth value of an override: a dictionary is true unless empty. *)
Definition nonempty (o : override) : bool :=
  match ov_strategy o, ov_country o with
  | None, None => false
  | _, _ => true
  end.

(** *** Endpoints *)

Definition next_proxy (now : Qc) (rnd : random) (req : NextProxyRequest)
    (e : engine) : result (engine * http next_proxy_body) :=
  let strategy := _get_strategy e in
  let strategy :=
    match truthy (req_target_domain req) with
    | Some domain =>
        match get_domain_override domain e with
        | Some override =>
            if nonempty override then
              let override_name :=
                default "per-request"%string (ov_strategy override) in
              default PerRequestStrategy
                      (dict_get override_name STRATEGY_MAP)
            else strategy
        | None => strategy
        end
    | None => strategy
    end in
  let context :=
    {| session_id := req_session_id req;
       target_domain := req_target_domain req;
       session_ttl := Some (default 300 (config_session_ttl e));
       rotation_interval :=
         Some (default 30 (config_rotation_interval e)) |} in
  '(r, proxy) ← select strategy now rnd context (pool e);
  let e := with_pool r e in
  match proxy with
  | None =>
      Ok (e, HTTPException 503 "No healthy proxies available")
  | Some proxy =>
      Ok (e, Returned {| np_ip := ip proxy;
                         np_port := port proxy;
                         np_protocol := protocol proxy;
                         np_health_score := health_score proxy;
                         np_latency_ms := latency_ms proxy |})
  end.


Definition get_strategy (e : engine) : string * Z * Z :=
  (default "per-request"%string (rotation_strategy e),
   default 300 (config_session_ttl e),
   default 30 (config_rotation_interval e)).

Definition update_strategy (req : StrategyUpdate) (e : engine)
  : engine * http string :=
  match dict_get (su_strategy req) STRATEGY_MAP with
  | None =>
      (e, HTTPException 400 ("Unknown strategy: " ++ su_strategy req))
  | Some _ =>
      let e := Engine (pool e) (Some (su_strategy req))
                      (config_session_ttl e) (config_rotation_interval e)
                      (domain_overrides e) (stats e) in
      let e := match su_session_ttl req with
               | Some ttl =>
                   Engine (pool e) (rotation_strategy e) (Some ttl)
                          (config_rotation_interval e)
                          (domain_overrides e) (stats e)
               | None => e
               end in
      let e := match su_rotation_interval req with
               | Some interval =>
                   Engine (pool e) (rotation_strategy e)
                          (config_session_ttl e) (Some interval)
                          (domain_overrides e) (stats e)
               | None => e
               end in
      (e, Returned "updated"%string)
  end.



End Engine.

(** ** The API server's domain overrides *)

Module ApiServer.
Import Engine.

Record DomainOverride := {
  do_domain : string;
  do_strategy : string;
  do_country : option string
}.

(** [add_domain_override]: the stored object has the strategy, and the
    country when one is given and is not the empty string. *)
Definition add_domain_override (body : DomainOverride) (e : engine)
  : engine :=
  let config :=
    Override (Some (do_strategy body))
             (Strategies.truthy (do_country body)) in
  Engine (pool e) (rotation_strategy e) (config_session_ttl e)
         (config_rotation_interval e)
         (<[do_domain body := config]> (domain_overrides e)) (stats e).

Definition delete_domain_override (domain : string) (e : engine) : engine :=
  Engine (pool e) (rotation_strategy e) (config_session_ttl e)
         (config_rotation_interval e)
         (base.delete domain (domain_overrides e)) (stats e).

End ApiServer.
(** ** Reading the engine's answers *)

Module EngineProps.
Import Pool Strategies Engine.

(** The context [/next-proxy] hands to the strategy. *)
Definition context_of (req : NextProxyRequest) (e : engine) : context :=
  Context (req_session_id req) (req_target_domain req)
          (Some (default 300 (config_session_ttl e)))
          (Some (default 30 (config_rotation_interval e))).

(** The reply for a selection: the five fields of the proxy, or the 503
    when there is none. *)
Definition reply_of (selected : option proxy) : http next_proxy_body :=
  match selected with
  | Some p =>
      Returned (NextProxyBody (ip p) (port p) (protocol p)
                              (health_score p) (latency_ms p))
  | None => HTTPException 503 "No healthy proxies available"
  end.

(** What a caller of [/next-proxy] observes: the pool and the reply. *)
Definition observed (x : result (engine * http next_proxy_body))
  : result (redis * http next_proxy_body) :=
  '(e, reply) ← x; Ok (pool e, reply).

(** The request is served by strategy [s]. *)
Definition served_by (s : strategy) (now : Qc) (rnd : random)
    (req : NextProxyRequest) (e : engine) : Prop :=
  observed (next_proxy now rnd req e)
  = ('(r, selected) ← select s now rnd (context_of req e) (pool e);
     Ok (r, reply_of selected)).

(** The strategy [/next-proxy] settles on before it selects. *)
Definition chosen (req : NextProxyRequest) (e : engine) : strategy :=
  match truthy (req_target_domain req) with
  | Some domain =>
      match get_domain_override domain e with
      | Some override =>
          if nonempty override then
            default PerRequestStrategy
              (dict_get (default "per-request"%string
                                 (ov_strategy override)) STRATEGY_MAP)
          else _get_strategy e
      | None => _get_strategy e
      end
  | None => _get_strategy e
  end.

(** The strategy a stored name stands for. *)
Definition stands_for (n : string) (s : strategy) : Prop :=
  name s = n \/ ((forall s', name s' <> n) /\ s = PerRequestStrategy).

End EngineProps.
(** ** Reading one attempt of the handler *)

Module Trace.
Import Gateway Calls.

Section trace.

Variable decode : string -> string.
Variable _extract_domain : string -> string.
Variables (method url : string) (hdrs : headers) (body : option string).
Variable io : Z -> attempt_io.

(** Whether the attempt counts as blocked: a response does when
    [is_blocked] says so, a timeout or any other exception always. *)
Definition verdict (u : upstream) : bool :=
  match u with
  | Responded resp =>
      is_blocked (status_code resp) (decode (content resp))
                 (dict_get "location" (resp_headers resp))
  | TimeoutException | OtherException _ => true
  end.

(** What the attempt has to return: the response, or the 502 with no
    header and an empty body the handler starts every attempt with. *)
Definition answer (u : upstream) : Z * headers * string :=
  match u with
  | Responded resp => (status_code resp, resp_headers resp, content resp)
  | TimeoutException | OtherException _ => (502, [], EmptyString)
  end.

Definition error_of (u : upstream) : string :=
  match u with
  | Responded _ => EmptyString
  | TimeoutException => "timeout"
  | OtherException msg => msg
  end.

(** The log entry of attempt [a] through the proxy [info]. *)
Definition entry_of (a : Z) (info : proxy_info) : log_entry :=
  let u := forwarded (io a) in
  {| log_ts := ts (io a);
     log_method := method;
     log_url := url;
     log_target_domain := _extract_domain url;
     log_proxy_ip := (pi_ip info, pi_port info);
     log_status := (answer u).1.1;
     log_latency_ms := elapsed_ms (io a);
     log_blocked := verdict u;
     log_attempt := a;
     log_strategy := default "unknown"%string (pi_strategy info);
     log_error := error_of u;
     log_response_headers := take 20 (answer u).1.2 |}.

End trace.

(** The [mark-block] notification a log entry calls for. *)
Definition marked (entry : log_entry) : option (string * Z * string) :=
  if log_blocked entry
  then Some ((log_proxy_ip entry).1, (log_proxy_ip entry).2,
             log_target_domain entry)
  else None.

(** The headers sent upstream, one per [Forward] call, in order. *)
Definition forwarded_headers (calls : list event) : list headers :=
  omap (fun e => match e with
                 | Forward _ _ _ req_headers _ => Some req_headers
                 | _ => None
                 end) calls.

(** The rotation-engine queries among the calls. *)
Definition next_proxy_calls (calls : list event)
  : list (option string * string) :=
  omap (fun e => match e with
                 | GetNextProxy session_id domain => Some (session_id, domain)
                 | _ => None
                 end) calls.

(** The live log after the entries have been pushed, first to last. *)
Definition push_all (entries : list log_entry) (l : live) : live :=
  foldl (fun l entry => log_request_to_redis entry l) l entries.

End Trace.

(** ** More sample traffic *)

Module TrafficSamples.
Import Gateway.

Definition fine : response :=
  Response 200 [("content-type", "text/plain")]%string "ok".

(** Attempt 1 is answered 403 through 9.9.9.9:3128, every later attempt
    200 through 8.8.8.8:3128. *)
Definition blocked_then_fine (attempt : Z) : attempt_io :=
  if decide (attempt = 1)
  then AttemptIO (Some (ProxyInfo "9.9.9.9" 3128 None))
                 (Responded Samples.forbidden) 1%Qc 0%Qc
  else AttemptIO (Some (ProxyInfo "8.8.8.8" 3128 None))
                 (Responded fine) 1%Qc 0%Qc.

(** Attempt 1 times out through 9.9.9.9:3128; after that the rotation
    engine has no proxy left. *)
Definition timeout_then_nothing (attempt : Z) : attempt_io :=
  if decide (attempt = 1)
  then AttemptIO (Some (ProxyInfo "9.9.9.9" 3128 None))
                 TimeoutException 1%Qc 0%Qc
  else AttemptIO None TimeoutException 1%Qc 0%Qc.

Definition no_traffic : live := Live [] [].

(** The proxies the rotation engine hands out in these two samples. *)
Definition handed_out (attempt : Z) : proxy_info :=
  if decide (attempt = 1) then ProxyInfo "9.9.9.9" 3128 None
  else ProxyInfo "8.8.8.8" 3128 None.

(** A request with a session header in mixed case. *)
Definition request_headers : headers :=
  [("Host", "example.com"); ("X-Session-Id", "s"); ("accept", "*/*")]%string.

End TrafficSamples.
(** ** health_checker.py: a pass over the whole pool *)

Module Checks.
Import Pool.

(** The checks of one pass, in the order of the task list.  The tasks
    share one event loop; each one reads and writes the keys of its own
    address only. *)
Fixpoint check_each (now : proxy -> Qc) (outcome : proxy -> HealthChecker.probe)
    (proxies : list proxy) (r : redis) : redis * list bool :=
  match proxies with
  | [] => (r, [])
  | p :: proxies =>
      let '(r, result) :=
        HealthChecker.check_single_proxy (now p) (outcome p) p r in
      let '(r, results) := check_each now outcome proxies r in
      (r, result :: results)
  end.

Record stats := Stats {
  total : Z;
  healthy : Z;
  dead : Z
}.

Definition check_all_proxies (now : proxy -> Qc)
    (outcome : proxy -> HealthChecker.probe) (r : redis) : redis * stats :=
  let members := elements (smembers POOL_INDEX_KEY r) in
  match members with
  | [] => (r, Stats 0 0 0)
  | _ =>
      let proxies :=
        omap (fun m => HealthChecker.get_proxy m.1 m.2 r) members in
      let '(r, results) := check_each now outcome proxies r in
      let healthy :=
        Z.of_nat (length (filter (fun b => b = true) results)) in
      let dead := Z.of_nat (length results) - healthy in
      (r, Stats (Z.of_nat (length results)) healthy dead)
  end.

End Checks.

(** ** main.py of the proxy scraper *)

Module Scraper.
Import Pool.

(** *** Merging the sources *)

(** Deduplicate by [ip:port], keeping the first occurrence. *)
Fixpoint dedupe (all_proxies : list proxy) (seen : gset addr)
    (unique : list proxy) : list proxy :=
  match all_proxies with
  | [] => unique
  | p :: all_proxies =>
      let key := (ip p, port p) in
      if decide (key ∉ seen)
      then dedupe all_proxies ({[key]} ∪ seen) (unique ++ [p])
      else dedupe all_proxies seen unique
  end.

(** *** Storing *)

Inductive command :=
| CmdSetnx (a : addr) (p : proxy)
| CmdSet (a : addr) (p : proxy)
| CmdSadd (k : set_key) (a : addr).

Definition run_command (c : command) (r : redis) : redis :=
  match c with
  | CmdSetnx a p =>
      match get a r with
      | Some _ => r
      | None => set a p r
      end
  | CmdSet a p => set a p r
  | CmdSadd k a => sadd k a r
  end.

Definition execute (pipe : list command) (r : redis) : redis :=
  fold_left (fun r c => run_command c r) pipe r.

(** The pipeline for the scraped proxies: only add a record that is not
    in the pool yet. *)
Definition store_pipeline (unique : list proxy) : list command :=
  unique ≫= (fun p =>
    let addr := (ip p, port p) in
    [CmdSetnx addr p; CmdSadd POOL_INDEX_KEY addr]).

(** The pipeline for the fallback proxies. *)
Definition webshare_pipeline (ws_proxies : list proxy) : list command :=
  ws_proxies ≫= (fun p =>
    let addr := (ip p, port p) in
    [CmdSet addr p; CmdSadd POOL_INDEX_KEY addr]).

Record summary := Summary {
  scraped : Z;
  healthy : Z;
  dead : Z
}.

(** [results] is what the sources gave (nothing for a source that
    failed), [ws_proxies] what the fallback gives when asked (nothing when
    it is disabled or fails). *)
Definition scrape_and_store (MIN_POOL_SIZE : Z)
    (results : list (list proxy))
    (now : proxy -> Qc) (outcome : proxy -> HealthChecker.probe)
    (ws_proxies : list proxy) (r : redis) : redis * summary :=
  let all_proxies := concat results in
  let unique := dedupe all_proxies ∅ [] in
  let r := execute (store_pipeline unique) r in
  let '(r, stats) := Checks.check_all_proxies now outcome r in
  let healthy_count := Checks.healthy stats in
  let r :=
    if decide (healthy_count < MIN_POOL_SIZE)
    then match ws_proxies with
         | [] => r
         | _ => execute (webshare_pipeline ws_proxies) r
         end
    else r in
  (r, Summary (Z.of_nat (length unique)) (Checks.healthy stats)
              (Checks.dead stats)).

End Scraper.

(** ** Reading a merged list *)

Module ScraperProps.
Import Pool.

Definition address (p : proxy) : addr := (ip p, port p).

(** The first record of a list with the address [a]. *)
Definition first_with (a : addr) (l : list proxy) : option proxy :=
  snd <$> list_find (fun p => address p = a) l.

End ScraperProps.

(** ** Reading a pass of the health checker *)

Module ChecksProps.
Import Pool.



End ChecksProps.
(** ** The regular expression of the scraper *)

Module Re.










End Re.

(** ** Parsing a scraped line *)

Module Parse.
Import Pool Re.









End Parse.

(** ** Reading an address line *)

Module ParseProps.
Import Re.





End ParseProps.

(** * Properties *)

#[local] Set Warnings "-clear-no-such-hyp".

(** ** The score *)

Section ScoreFacts.
Import Pool.

Lemma Qc_of_Z_le (a b : Z) : a ≤ b -> (Qc_of_Z a ≤ Qc_of_Z b)%Qc.
Proof. intros H. unfold Qcle, Qc_of_Z. cbn [this]. rewrite <- Zle_Qle. exact H. Qed.

Lemma Qc_of_Z_lt (a b : Z) : a < b -> (Qc_of_Z a < Qc_of_Z b)%Qc.
Proof. intros H. unfold Qclt, Qc_of_Z. cbn [this]. rewrite <- Zlt_Qlt. exact H. Qed.

Lemma Qc_of_Z_0 : Qc_of_Z 0 = 0%Qc.
Proof. apply Qc_is_canon. reflexivity. Qed.

Lemma score_bounds (s t : Z) :
  0 ≤ s -> s ≤ t -> (0 ≤ score s t)%Qc /\ (score s t ≤ Qc_of_Z 100)%Qc.
Proof.
  intros Hs Hst. unfold score. case_decide as Ht.
  - split; [apply Qcle_refl|]. rewrite <- Qc_of_Z_0. apply Qc_of_Z_le. lia.
  - assert (Hpos : (0 < Qc_of_Z t)%Qc).
    { rewrite <- Qc_of_Z_0. apply Qc_of_Z_lt. lia. }
    assert (Hne : Qc_of_Z t <> 0%Qc).
    { intros E. rewrite E in Hpos. by apply Qclt_not_eq in Hpos. }
    set (q := (Qc_of_Z s / Qc_of_Z t)%Qc).
    assert (Hq : (q * Qc_of_Z t)%Qc = Qc_of_Z s).
    { unfold q. rewrite Qcmult_comm. apply Qcmult_div_r. exact Hne. }
    assert (H0 : (0 ≤ q)%Qc).
    { apply (Qcmult_lt_0_le_reg_r _ _ (Qc_of_Z t) Hpos).
      rewrite Hq, Qcmult_0_l, <- Qc_of_Z_0. apply Qc_of_Z_le. lia. }
    assert (H1 : (q ≤ 1)%Qc).
    { apply (Qcmult_lt_0_le_reg_r _ _ (Qc_of_Z t) Hpos).
      rewrite Hq, Qcmult_1_l. by apply Qc_of_Z_le. }
    assert (H100 : (0 ≤ Qc_of_Z 100)%Qc).
    { rewrite <- Qc_of_Z_0. apply Qc_of_Z_le. lia. }
    split.
    + rewrite <- (Qcmult_0_l (Qc_of_Z 100)).
      by apply Qcmult_le_compat_r.
    + rewrite <- (Qcmult_1_l (Qc_of_Z 100)) at 2.
      by apply Qcmult_le_compat_r.
Qed.

End ScoreFacts.

(** ** The pool *)

Section OpsFacts.
Import Pool Ops.

Lemma bulk_add_loop_raises now p ps pipe count :
  bulk_add_loop now (p :: ps) pipe count =
  Raise (match f_ip p, f_port p with
         | Some _, Some _ => TypeError
         | _, _ => KeyError
         end).
Proof.
  simpl. destruct p as [[i|] [q|] ? ? ? ? ? ? ? ? ? ? ?]; reflexivity.
Qed.

Lemma bulk_add_ok now ps r r' n :
  bulk_add now ps r = Ok (r', n) -> ps = [] /\ r' = r /\ n = 0.
Proof.
  destruct ps as [|p ps]; unfold bulk_add.
  - simpl. intros [= <- <-]. auto.
  - rewrite bulk_add_loop_raises. discriminate.
Qed.

Lemma execute_app p1 p2 r : execute (p1 ++ p2) r = execute p2 (execute p1 r).
Proof. unfold execute. apply fold_left_app. Qed.

Lemma execute_cons c p r : execute (c :: p) r = execute p (run_command c r).
Proof. reflexivity. Qed.

Lemma execute_flush (l : list addr) r :
  let r' :=
    execute (flat_map (fun a => [CDelete a; CSrem POOL_INDEX_KEY a]) l) r in
  (forall a, proxies r' !! a = if decide (a ∈ l) then None else proxies r !! a)
  /\ index r' = index r ∖ list_to_set l
  /\ dead r' = dead r
  /\ healthy r' = healthy r.
Proof.
  revert r. induction l as [|x l IH]; intros r.
  - cbn. split; [|split; [|split]]; [|set_solver|done|done].
    intros a. case_decide as H; [by apply elem_of_nil in H|done].
  - cbn [flat_map app]. rewrite !execute_cons.
    specialize (IH (run_command (CSrem POOL_INDEX_KEY x)
                      (run_command (CDelete x) r))).
    cbn zeta in *. destruct IH as (Hp & Hi & Hd & Hh).
    split; [|split; [|split]].
    + intros a. rewrite Hp. cbn.
      destruct (decide (a = x)) as [->|Hne].
      * rewrite lookup_delete_eq.
        rewrite (decide_True (P := x ∈ x :: l)) by set_solver.
        by case_decide.
      * rewrite lookup_delete_ne by done.
        destruct (decide (a ∈ l)) as [Hin|Hnin].
        -- by rewrite decide_True by set_solver.
        -- by rewrite decide_False by set_solver.
    + rewrite Hi. cbn. set_solver.
    + rewrite Hd. reflexivity.
    + rewrite Hh. reflexivity.
Qed.

Lemma flush_dead_spec r :
  let r' := (flush_dead r).1 in
  (forall a, proxies r' !! a = if decide (a ∈ dead r) then None
                               else proxies r !! a)
  /\ index r' = index r ∖ dead r
  /\ dead r' = ∅
  /\ healthy r' = healthy r.
Proof.
  unfold flush_dead. cbn [smembers].
  destruct (elements (dead r)) as [|x l] eqn:E.
  - apply elements_empty_inv in E. apply leibniz_equiv in E.
    cbn. rewrite E. split; [|split; [|split]]; [|set_solver|done|done].
    intros a. by rewrite decide_False by set_solver.
  - rewrite <- E. cbn [fst]. rewrite execute_app.
    pose proof (execute_flush (elements (dead r)) r) as H.
    cbn zeta in H. destruct H as (Hp & Hi & Hd & Hh).
    set (r1 := execute _ r) in *.
    cbn. split; [|split; [|split]].
    + intros a. rewrite Hp.
      destruct (decide (a ∈ dead r)) as [Hin|Hnin].
      * by rewrite decide_True by (by apply elem_of_elements).
      * rewrite decide_False; [done|]. by rewrite elem_of_elements.
    + rewrite Hi. rewrite list_to_set_elements_L. reflexivity.
    + reflexivity.
    + exact Hh.
Qed.


Lemma record_ok_score s f :
  0 ≤ s -> 0 ≤ f -> (0 ≤ score s (s + f))%Qc /\ (score s (s + f) ≤ Qc_of_Z 100)%Qc.
Proof. intros. apply score_bounds; lia. Qed.

Ltac wf_split := split; [|split; [|split]].

Ltac open_store r :=
  destruct r as [px ix dx hx sx rx cx];
  unfold well_formed, healthy_ok, dead_ok, indexed, all_counted in *;
  cbn in *.

Lemma well_formed_empty : well_formed empty_redis.
Proof.
  wf_split.
  - intros a H. cbn in H. set_solver.
  - intros a H. cbn in H. set_solver.
  - intros a [p H]. cbn in H. by rewrite lookup_empty in H.
  - intros a p H. cbn in H. by rewrite lookup_empty in H.
Qed.

Lemma counted_success p now latency :
  counted p ->
  counted {| ip := ip p; port := port p; protocol := protocol p;
             country := country p; latency_ms := latency;
             health_score :=
               score (success_count p + 1) (total_checks p + 1);
             last_checked := now; source := source p;
             fail_count := fail_count p;
             success_count := success_count p + 1;
             total_checks := total_checks p + 1;
             consecutive_fails := 0; created_at := created_at p |}.
Proof.
  intros (Hs & Hf & Ht & _). unfold counted, record_ok. cbn.
  split; [lia|]. split; [lia|]. split; [lia|].
  apply score_bounds; lia.
Qed.

Lemma counted_failure p now :
  counted p ->
  counted {| ip := ip p; port := port p; protocol := protocol p;
             country := country p; latency_ms := latency_ms p;
             health_score := score (success_count p) (total_checks p + 1);
             last_checked := now; source := source p;
             fail_count := fail_count p + 1;
             success_count := success_count p;
             total_checks := total_checks p + 1;
             consecutive_fails := consecutive_fails p + 1;
             created_at := created_at p |}.
Proof.
  intros (Hs & Hf & Ht & _). unfold counted, record_ok. cbn.
  split; [lia|]. split; [lia|]. split; [lia|].
  apply score_bounds; lia.
Qed.

Lemma insert_indexed (px : gmap addr proxy) (ix : gset addr) a p :
  (forall b, is_Some (px !! b) -> b ∈ ix) ->
  forall b, is_Some (<[a := p]> px !! b) -> b ∈ {[a]} ∪ ix.
Proof.
  intros Hi b. destruct (decide (b = a)) as [->|Hne]; [set_solver|].
  rewrite lookup_insert_ne by done. intros H. specialize (Hi b H).
  set_solver.
Qed.

Lemma insert_counted (px : gmap addr proxy) a p :
  counted p ->
  (forall b q, px !! b = Some q -> counted q) ->
  forall b q, <[a := p]> px !! b = Some q -> counted q.
Proof.
  intros Hp Hc b q. destruct (decide (b = a)) as [->|Hne].
  - rewrite lookup_insert_eq. by intros [= <-].
  - rewrite lookup_insert_ne by done. apply Hc.
Qed.

Lemma add_proxy_ok now ip port kw r r' p :
  add_proxy now ip port kw r = Ok (r', p) ->
  r' = (if bool_decide (0 ≤ health_score p)%Qc
        then sadd HEALTHY_SET_KEY (ip, port) else id)
         (srem DEAD_SET_KEY (ip, port)
            (sadd POOL_INDEX_KEY (ip, port) (set (ip, port) p r))).
Proof.
  unfold add_proxy. destruct (bind_kwargs kw) as [kwargs|]; [|done].
  cbn. destruct (get (ip, port) r) as [ex|].
  - cbn. intros [= <- <-]. cbn. by case_bool_decide.
  - destruct (_default_proxy now ip port kwargs) as [d|]; [|done].
    cbn. intros [= <- <-]. cbn. by case_bool_decide.
Qed.

Lemma step_well_formed r o :
  well_formed r -> in_model r o -> well_formed (step o r).
Proof.
  intros (Hh & Hd & Hi & Hc) Hm.
  destruct o as [now ip port kw|now ps|now ip port lat|now ip port
                |ip port|ip port|]; cbn [step in_model] in *.
  - (* add *)
    destruct (add_proxy now ip port kw r) as [[r' p]|e] eqn:E; [|done].
    apply add_proxy_ok in E as ->.
    open_store r.
    case_bool_decide; cbn; wf_split;
      [set_solver | set_solver | | by apply insert_counted
      |set_solver | set_solver | | by apply insert_counted].
    all: intros b Hb; apply (insert_indexed _ _ _ _ Hi) in Hb; set_solver.
  - (* bulk_add *)
    destruct (bulk_add now ps r) as [[r' n]|e] eqn:E; [|done].
    by apply bulk_add_ok in E as (_ & -> & _).
  - (* record_success *)
    unfold record_success. destruct (get (ip, port) r) as [p|] eqn:G;
      [|done].
    unfold get in G. pose proof (Hc _ _ G) as Hp.
    assert ((ip, port) ∈ index r) as Hin by (apply Hi; by rewrite G).
    open_store r. wf_split.
    + set_solver.
    + set_solver.
    + intros b Hb. apply (insert_indexed _ _ _ _ Hi) in Hb. set_solver.
    + apply insert_counted; [by apply counted_success|done].
  - (* record_failure *)
    unfold record_failure. destruct (get (ip, port) r) as [p|] eqn:G;
      [|done].
    unfold get in G. pose proof (Hc _ _ G) as Hp.
    assert ((ip, port) ∈ index r) as Hin by (apply Hi; by rewrite G).
    open_store r.
    case_bool_decide; cbn; wf_split;
      [set_solver | set_solver |
      | apply insert_counted; [by apply counted_failure|done]
      |set_solver | set_solver |
      | apply insert_counted; [by apply counted_failure|done]].
    all: intros b Hb; apply (insert_indexed _ _ _ _ Hi) in Hb; set_solver.
  - (* mark_dead *)
    open_store r. wf_split; [set_solver|set_solver|done|done].
  - (* remove *)
    open_store r. wf_split; [set_solver|set_solver| |].
    + intros a. destruct (decide (a = (ip, port))) as [->|Hne].
      * rewrite lookup_delete_eq. by intros [? ?].
      * rewrite lookup_delete_ne by done. intros H. specialize (Hi a H).
        set_solver.
    + intros a q. destruct (decide (a = (ip, port))) as [->|Hne].
      * by rewrite lookup_delete_eq.
      * rewrite lookup_delete_ne by done. apply Hc.
  - (* flush_dead *)
    pose proof (flush_dead_spec r) as (Hp & Hix & Hdx & Hhx).
    set (r' := (flush_dead r).1) in *.
    unfold healthy_ok, dead_ok, indexed, all_counted in *. wf_split.
    + intros a. rewrite Hix, Hhx, Hdx. set_solver.
    + intros a. rewrite Hdx. set_solver.
    + intros a. rewrite Hp, Hix. case_decide; [by intros [? ?]|].
      intros H'. specialize (Hi a H'). set_solver.
    + intros a q. rewrite Hp. case_decide; [done|]. apply Hc.
Qed.


(** *** C1: [bulk_add] against [add_proxy] *)

(** C1 (the code departs from the claim).  [bulk_add] is to behave as
    [add_proxy] on each entry.  In the code every entry reaches
    [_default_proxy(ip, port, **p)] with [p] holding the keys [ip] and
    [port] it was just read from, so the call raises before the pipeline
    is executed: no entry is ever added.  On the entry
    [{ip: 1.2.3.4, port: 8080}] and the empty pool [bulk_add] raises
    [TypeError], while [add_proxy] puts the address in the index and in
    the healthy set. *)
Theorem bulk_add_raises_on_every_entry :
  (forall now p ps r, exists e, bulk_add now (p :: ps) r = Raise e)
  /\ bulk_add 0%Qc [Samples.entry_1234] empty_redis = Raise TypeError
  /\ exists r p,
       add_proxy 0%Qc "1.2.3.4" 8080 no_fields empty_redis = Ok (r, p)
       /\ (("1.2.3.4"%string, 8080) ∈ index r)
       /\ (("1.2.3.4"%string, 8080) ∈ healthy r)
       /\ (("1.2.3.4"%string, 8080) ∉ dead r).
Proof.
  split; [|split].
  - intros now p ps r. unfold bulk_add. rewrite bulk_add_loop_raises.
    eexists. reflexivity.
  - reflexivity.
  - eexists _, _. split; [reflexivity|]. cbn. set_solver.
Qed.

(** *** C8: [record_success] *)


(** *** C7: three failures in a row *)

Lemma record_failure_present now ip port r p :
  get_proxy ip port r = Some p ->
  exists r' p',
    record_failure now ip port r = (r', Some p')
    /\ get_proxy ip port r' = Some p'
    /\ fail_count p' = fail_count p + 1
    /\ total_checks p' = total_checks p + 1
    /\ consecutive_fails p' = consecutive_fails p + 1
    /\ success_count p' = success_count p
    /\ index r' = index r
    /\ (if decide (3 ≤ consecutive_fails p')
        then dead r' = {[(ip, port)]} ∪ dead r
             /\ healthy r' = healthy r ∖ {[(ip, port)]}
        else dead r' = dead r /\ healthy r' = healthy r).
Proof.
  unfold get_proxy, record_failure. intros ->.
  eexists _, _. split; [reflexivity|]. cbn.
  case_bool_decide; case_decide; try lia; cbn; unfold get; cbn;
    rewrite lookup_insert_eq; repeat split; reflexivity.
Qed.

(** C7.  Three [record_failure] calls in a row on a present proxy whose
    [consecutive_fails] was 0 add 3 to [fail_count] and to
    [total_checks] and leave the address in the dead set and out of the
    healthy set; the record is still stored and the index is as it was.
    On an absent proxy [record_failure] changes nothing. *)
Theorem record_failure_three_times now1 now2 now3 ip port r :
  (forall p,
     get_proxy ip port r = Some p ->
     consecutive_fails p = 0 ->
     let r1 := (record_failure now1 ip port r).1 in
     let r2 := (record_failure now2 ip port r1).1 in
     let r3 := (record_failure now3 ip port r2).1 in
     exists p3,
       get_proxy ip port r3 = Some p3
       /\ fail_count p3 = fail_count p + 3
       /\ total_checks p3 = total_checks p + 3
       /\ ((ip, port) ∈ dead r3)
       /\ ((ip, port) ∉ healthy r3)
       /\ index r3 = index r)
  /\ (get_proxy ip port r = None ->
      record_failure now1 ip port r = (r, None)).
Proof.
  split.
  - intros p Hp Hc.
    destruct (record_failure_present now1 ip port r p Hp)
      as (r1 & p1 & E1 & G1 & F1 & T1 & C1 & _ & I1 & _).
    destruct (record_failure_present now2 ip port r1 p1 G1)
      as (r2 & p2 & E2 & G2 & F2 & T2 & C2 & _ & I2 & _).
    destruct (record_failure_present now3 ip port r2 p2 G2)
      as (r3 & p3 & E3 & G3 & F3 & T3 & C3 & _ & I3 & D3).
    cbn zeta. rewrite E1. cbn [fst]. rewrite E2. cbn [fst]. rewrite E3.
    cbn [fst]. exists p3. split; [exact G3|].
    destruct (decide (3 ≤ consecutive_fails p3)) as [_|N]; [|lia].
    destruct D3 as [Dd Dh].
    repeat split; [lia | lia | set_solver | set_solver | congruence].
  - unfold get_proxy, record_failure. intros ->. reflexivity.
Qed.

Lemma record_failure_three_times_witness :
  (let r := set ("1.1.1.1"%string, 8080) Samples.fresh_1111 empty_redis in
   let r1 := (record_failure 1%Qc "1.1.1.1" 8080 r).1 in
   let r2 := (record_failure 1%Qc "1.1.1.1" 8080 r1).1 in
   let r3 := (record_failure 1%Qc "1.1.1.1" 8080 r2).1 in
   exists p3,
     get_proxy "1.1.1.1" 8080 r3 = Some p3
     /\ fail_count p3 = 3
     /\ total_checks p3 = 3
     /\ (("1.1.1.1"%string, 8080) ∈ dead r3)
     /\ (("1.1.1.1"%string, 8080) ∉ healthy r3)
     /\ index r3 = index r)
  /\ record_failure 1%Qc "1.1.1.1" 8080 empty_redis = (empty_redis, None).
Proof.
  split.
  - exact (proj1 (record_failure_three_times 1%Qc 1%Qc 1%Qc "1.1.1.1" 8080
                    (set ("1.1.1.1"%string, 8080) Samples.fresh_1111
                         empty_redis))
                 Samples.fresh_1111 eq_refl eq_refl).
  - exact (proj2 (record_failure_three_times 1%Qc 1%Qc 1%Qc "1.1.1.1" 8080
                    empty_redis) eq_refl).
Defined.

End OpsFacts.

(** ** C4: the invariants along sequences of operations *)

Section InvariantFacts.
Import Pool Ops.

(** C4, as stated, fails on the code.  [mark_dead] writes the dead set
    without looking at the index, so marking an unknown address leaves a
    dead address outside the index.  [add_proxy] stores the counters and
    the score its keyword arguments carry, so the record it writes need
    not add up (the values of the test suite's [_make_proxy] do not), and a
    negative counter that adds up lets the next [record_success] compute
    a score above 100. *)
Lemma pool_invariant_counterexample :
  ~ pool_invariant (run [MarkDead "9.9.9.9" 1] empty_redis)
  /\ ~ pool_invariant
         (run [Add 0%Qc "1.1.1.1" 8080 Samples.make_proxy_fields]
              empty_redis)
  /\ ~ pool_invariant
         (run [Add 0%Qc "1.1.1.1" 8080 Samples.negative_fields;
               RecordSuccess 0%Qc "1.1.1.1" 8080 0%Qc] empty_redis).
Proof.
  split; [|split].
  - intros (_ & Hd & _).
    destruct (Hd ("9.9.9.9"%string, 1)) as [Hi _]; cbn in *; set_solver.
  - intros (_ & _ & Hr).
    destruct (Hr ("1.1.1.1"%string, 8080)
                 (update Samples.fresh_1111 Samples.make_proxy_fields))
      as [Hsum _]; [reflexivity|]. cbn in Hsum. lia.
  - intros (_ & _ & Hr).
    edestruct (Hr ("1.1.1.1"%string, 8080)) as (_ & _ & Hle);
      [reflexivity|].
    revert Hle. vm_compute. intros H. by apply H.
Qed.

(** C4, amended.  Starting from the empty pool, after any sequence of
    [add], [bulk_add], [record_success], [record_failure], [mark_dead],
    [remove] and [flush_dead] in which every record written by [add] has
    non-negative success and fail counts summing to [total_checks] and a
    score between 0 and 100, and [mark_dead] is only applied to addresses
    of the index: every healthy address is in the index and not dead,
    every dead address is in the index and not healthy, and every stored
    record has [success_count + fail_count = total_checks] and a score
    between 0 and 100. *)
Theorem reachable_pool_invariant r : reachable r -> pool_invariant r.
Proof.
  intros H. assert (well_formed r) as (Hh & Hd & _ & Hc).
  { induction H as [|r o _ IH Hm]; [apply well_formed_empty|].
    by apply step_well_formed. }
  split; [done|]. split; [done|]. intros a p Hp. by apply (Hc a p).
Qed.

Lemma reachable_pool_invariant_witness :
  pool_invariant
    (step FlushDead
       (step (RecordFailure 1%Qc "1.1.1.1" 8080)
          (step (MarkDead "1.1.1.1" 8080)
             (step (Add 1%Qc "1.1.1.1" 8080 no_fields) empty_redis)))).
Proof.
  apply reachable_pool_invariant.
  apply reach_step; [|exact I].
  apply reach_step; [|exact I].
  apply reach_step; [|vm_compute; reflexivity].
  apply reach_step; [apply reach_empty|].
  cbn. repeat split; try lia; vm_compute; discriminate.
Defined.

End InvariantFacts.

(** ** C3: the health checker's failure path *)

Section HealthCheckerFacts.
Import Pool.



End HealthCheckerFacts.

(** ** The strategies *)

Section StrategyFacts.
Import Pool Strategies Selecting.

Lemma insert_sorted_perm x l : insert_sorted x l ≡ₚ x :: l.
Proof.
  induction l as [|y l IH]; [done|]. cbn. case_decide; [done|].
  rewrite IH. apply perm_swap.
Qed.

Lemma sort_perm l : sort l ≡ₚ l.
Proof.
  induction l as [|x l IH]; [done|]. cbn. rewrite insert_sorted_perm.
  by rewrite IH.
Qed.




Lemma choice_nonempty {A} rnd (x : A) l : exists y, choice rnd (x :: l) = Ok y.
Proof.
  unfold choice.
  destruct ((x :: l) !! (random_bits rnd mod length (x :: l))%nat)
    as [y|] eqn:E; [by eexists|].
  apply lookup_ge_None in E.
  pose proof (Nat.mod_upper_bound (random_bits rnd) (length (x :: l))) as H.
  cbn [length] in *. lia.
Qed.


(** *** C2: when [select] returns [None] *)

(** C2, as stated, fails on the code.  An on-block selection persists
    the proxy it picked; once that proxy is removed from the pool (it is
    then in neither the healthy nor the dead set) the healthy list is
    empty, and the next selection still returns the persisted proxy. *)
Lemma select_none_counterexample :
  let r1 := Ops.step (Ops.Add 0%Qc "1.1.1.1" 8080 no_fields) empty_redis in
  exists r2 p,
    select OnBlockStrategy 0%Qc Samples.some_random Samples.no_context r1
      = Ok (r2, Some p)
    /\ let r3 := remove_proxy "1.1.1.1" 8080 r2 in
       get_healthy_proxies 0%Qc r3 = []
       /\ select OnBlockStrategy 0%Qc Samples.some_random
            Samples.no_context r3 = Ok (r3, Some p).
Proof.
  cbn zeta. eexists _, _. split; [vm_compute; reflexivity|].
  split; vm_compute; reflexivity.
Qed.

Ltac none_cases :=
  repeat match goal with
    | |- _ <-> _ => split
    | |- _ -> _ => intro
    | H : _ /\ _ |- _ => destruct H
    | H : exists _, _ |- _ => destruct H
    | H : Ok _ = Ok _ |- _ => injection H as H
    | H : Some _ = Some _ |- _ => injection H as H
    | H : (_, _) = (_, _) |- _ => injection H as H
    | _ => discriminate
    | _ => congruence
    | _ => progress subst
    end.

(** C2, amended.  For each of the five strategies and every context,
    [select] returns [None] exactly when the healthy list is empty and
    the strategy holds no proxy outside the dead set to return instead:
    the session's pin for per-session, the persisted current proxy
    within its rotation interval for time-based, the persisted current
    proxy for on-block.  Per-request and round-robin hold none, so they
    return [None] exactly when the healthy list is empty. *)
Theorem select_none_iff :
  (forall s now rnd ctx r,
     returns_none (select s now rnd ctx r) <->
     get_healthy_proxies 0%Qc r = [] /\ ~ holds_live_proxy s now ctx r)
  /\ (forall now rnd ctx r,
       returns_none (select PerRequestStrategy now rnd ctx r) <->
       get_healthy_proxies 0%Qc r = [])
  /\ (forall now rnd ctx r,
       returns_none (select RoundRobinStrategy now rnd ctx r) <->
       get_healthy_proxies 0%Qc r = []).
Proof.
  assert (forall s now rnd ctx r,
     returns_none (select s now rnd ctx r) <->
     get_healthy_proxies 0%Qc r = [] /\ ~ holds_live_proxy s now ctx r)
    as Hmain.
  { intros s now rnd ctx r.
    unfold returns_none, holds_live_proxy, cached_proxy.
    destruct s; cbn [select].
    - unfold PerRequestStrategy_select.
      destruct (get_healthy_proxies 0%Qc r) as [|p l].
      + split; [|by eexists]. intros _. split; [done|]. by intros (? & ? & _).
      + destruct (choices _ _ _); cbn; none_cases.
    - unfold PerSessionStrategy_select.
      destruct (truthy (session_id ctx)) as [sid|].
      + destruct (get_session_proxy sid r) as [c|].
        * destruct (is_dead c r) eqn:D.
          -- destruct (get_healthy_proxies 0%Qc r) as [|p l].
             ++ split; [|by eexists]. intros _. split; [done|].
                intros (? & [= <-] & ?). congruence.
             ++ destruct (choice_nonempty rnd p l) as [y ->]. cbn.
                none_cases.
          -- split; [none_cases|]. intros [_ Hn]. destruct Hn. by eexists.
        * destruct (get_healthy_proxies 0%Qc r) as [|p l].
          -- split; [|by eexists]. intros _. split; [done|].
             by intros (? & ? & _).
          -- destruct (choice_nonempty rnd p l) as [y ->]. cbn. none_cases.
      + destruct (get_healthy_proxies 0%Qc r) as [|p l].
        * split; [|by eexists]. intros _. split; [done|].
          by intros (? & ? & _).
        * destruct (choice_nonempty rnd p l) as [y ->]. cbn. none_cases.
    - unfold TimeBasedStrategy_select.
      destruct (time_based_current_proxy (cfg r)) as [c|].
      + case_bool_decide.
        * destruct (is_dead c r) eqn:D.
          -- destruct (get_healthy_proxies 0%Qc r) as [|p l].
             ++ split; [|by eexists]. intros _. split; [done|].
                intros (? & [= <-] & ?). congruence.
             ++ destruct (choice_nonempty rnd p l) as [y ->]. cbn.
                none_cases.
          -- split; [none_cases|]. intros [_ Hn]. destruct Hn. by eexists.
        * destruct (get_healthy_proxies 0%Qc r) as [|p l].
          -- split; [|by eexists]. intros _. split; [done|].
             by intros (? & ? & _).
          -- destruct (choice_nonempty rnd p l) as [y ->]. cbn. none_cases.
      + destruct (get_healthy_proxies 0%Qc r) as [|p l].
        * split; [|by eexists]. intros _. split; [done|].
          intros (? & Hc & _). by case_bool_decide.
        * destruct (choice_nonempty rnd p l) as [y ->]. cbn. none_cases.
    - unfold OnBlockStrategy_select.
      destruct (on_block_current_proxy (cfg r)) as [c|].
      + destruct (is_dead c r) eqn:D.
        * destruct (get_healthy_proxies 0%Qc r) as [|p l].
          -- split; [|by eexists]. intros _. split; [done|].
             intros (? & [= <-] & ?). congruence.
          -- none_cases.
        * split; [none_cases|]. intros [_ Hn]. destruct Hn. by eexists.
      + destruct (get_healthy_proxies 0%Qc r) as [|p l].
        * split; [|by eexists]. intros _. split; [done|].
          by intros (? & ? & _).
        * none_cases.
    - unfold RoundRobinStrategy_select.
      destruct (get_healthy_proxies 0%Qc r) as [|p l].
      + split; [|by eexists]. intros _. split; [done|]. by intros (? & ? & _).
      + destruct (getitem _ _); cbn; none_cases. }
  split; [exact Hmain|]. split.
  - intros now rnd ctx r. rewrite Hmain. split; [by intros [? _]|].
    intros H. split; [done|]. by intros (? & ? & _).
  - intros now rnd ctx r. rewrite Hmain. split; [by intros [? _]|].
    intros H. split; [done|]. by intros (? & ? & _).
Qed.

End StrategyFacts.

(** ** C9: round-robin *)

Section RoundRobinFacts.
Import Pool Strategies Selecting.


Lemma get_healthy_proxies_elem min_score r p :
  p ∈ get_healthy_proxies min_score r <->
  exists a, a ∈ healthy r /\ proxies r !! a = Some p
            /\ (min_score ≤ health_score p)%Qc.
Proof.
  unfold get_healthy_proxies. rewrite sort_perm.
  rewrite list_elem_of_filter, list_elem_of_omap. cbn [smembers]. split.
  - intros (Hs & o & Ho & Hid). apply list_elem_of_fmap in Ho as (a & -> & Ha).
    exists a. apply elem_of_elements in Ha. by repeat split.
  - intros (a & Ha & Hp & Hs). split; [done|]. exists (Some p).
    split; [|done]. apply list_elem_of_fmap. exists a.
    split; [done|]. by apply elem_of_elements.
Qed.

Lemma get_healthy_proxies_set_rr_index min_score k r :
  get_healthy_proxies min_score (set_rr_index k r)
  = get_healthy_proxies min_score r.
Proof. reflexivity. Qed.

Lemma round_robin_step ctx r :
  0 ≤ get_rr_index r ->
  get_healthy_proxies 0%Qc r <> [] ->
  let healthy := get_healthy_proxies 0%Qc r in
  let i := get_rr_index r in
  let j := if decide (Z.of_nat (length healthy) ≤ i) then 0 else i in
  exists p,
    healthy !! Z.to_nat j = Some p
    /\ RoundRobinStrategy_select ctx r = Ok (set_rr_index (j + 1) r, Some p).
Proof.
  intros Hi Hne. cbn zeta. unfold RoundRobinStrategy_select.
  destruct (get_healthy_proxies 0%Qc r) as [|q l] eqn:E; [done|].
  assert (forall j, 0 ≤ j < Z.of_nat (length (q :: l)) ->
            exists p, (q :: l) !! Z.to_nat j = Some p
                      /\ getitem (q :: l) j = Ok p) as Hget.
  { intros j Hj. destruct ((q :: l) !! Z.to_nat j) as [p|] eqn:L.
    - exists p. split; [done|]. unfold getitem.
      rewrite (decide_False (P := j < 0)) by lia.
      rewrite decide_True by exact Hj.
      by rewrite L.
    - apply lookup_ge_None in L. lia. }
  case_decide as Hlen.
  - destruct (Hget 0) as (p & L & ->); [cbn [length]; lia|]. by exists p.
  - destruct (Hget (get_rr_index r)) as (p & L & ->); [lia|]. by exists p.
Qed.





End RoundRobinFacts.

(** ** C5: block detection *)

Section BlockedFacts.
Import Gateway Blocking.
Local Open Scope string_scope.














End BlockedFacts.

(** ** The gateway's retry loop *)

Section GatewayFacts.
Import Gateway Calls.

Variable decode : string -> string.
Variable _extract_domain : string -> string.
Variables (method url : string) (hdrs : headers) (body : option string).
Variable io : Z -> attempt_io.

Abbreviation attempts :=
  (attempts decode _extract_domain method url hdrs body io).
Abbreviation handle_http_request :=
  (handle_http_request decode _extract_domain method url hdrs body io).

Lemma range_retries : range 1 (MAX_RETRIES + 1) = [1; 2; 3].
Proof. reflexivity. Qed.

(** The loop falls through only when its list of attempts is empty or
    ends before [MAX_RETRIES]. *)
Lemma attempts_exit todo calls l :
  todo <> [] ->
  (forall a, List.last todo 0 = a -> ~ a < MAX_RETRIES) ->
  returned_at (attempts todo calls l) <> RetriesExhausted.
Proof.
  revert calls l. induction todo as [|a todo IH]; intros calls l Hne Hlast;
    [done|].
  cbn [Gateway.attempts].
  destruct (next_proxy (io a)) as [info|]; [|done].
  destruct (forwarded (io a)) as [resp| |msg].
  - destruct (is_blocked _ _ _); [|done].
    case_decide as Hlt; [|done].
    destruct todo as [|b todo]; [by destruct (Hlast a)|].
    apply IH; [done|]. intros c Hc. apply Hlast. exact Hc.
  - case_decide as Hlt; [|done].
    destruct todo as [|b todo]; [by destruct (Hlast a)|].
    apply IH; [done|]. intros c Hc. apply Hlast. exact Hc.
  - case_decide as Hlt; [|done].
    destruct todo as [|b todo]; [by destruct (Hlast a)|].
    apply IH; [done|]. intros c Hc. apply Hlast. exact Hc.
Qed.

(** C10.  Whatever the rotation engine and the upstreams answer,
    [handle_http_request] returns from inside the loop: with the 502 of
    no healthy proxy, with the blocked response of the last attempt, or
    with a response that is not blocked.  The [return] after the loop,
    the 502 "all retries exhausted", is never reached. *)
Theorem handle_http_request_returns_in_loop l :
  (returned_at (handle_http_request l) = NoHealthyProxies
   \/ returned_at (handle_http_request l) = BlockedLastAttempt
   \/ returned_at (handle_http_request l) = Success)
  /\ ~ returned_at (handle_http_request l) = RetriesExhausted.
Proof.
  assert (returned_at (handle_http_request l) <> RetriesExhausted) as H.
  { unfold Gateway.handle_http_request. rewrite range_retries.
    apply attempts_exit; [done|]. cbn. intros a <-. unfold MAX_RETRIES. lia. }
  split; [|exact H].
  destruct (returned_at (handle_http_request l)); auto. done.
Qed.


(** C6.  When each of the three attempts gets a proxy and an upstream
    response that is classified as blocked, the handler notifies
    [mark-block] three times, once per attempt and for that attempt's
    proxy, hands one entry per attempt to the live log (attempts 1, 2, 3,
    each marked blocked, published in that order and pushed on the
    bounded list), and returns the third response: its status, its
    headers and its body. *)
Theorem handle_http_request_all_blocked l i1 i2 i3 resp1 resp2 resp3 :
  next_proxy (io 1) = Some i1 -> forwarded (io 1) = Responded resp1 ->
  blocked_response decode resp1 ->
  next_proxy (io 2) = Some i2 -> forwarded (io 2) = Responded resp2 ->
  blocked_response decode resp2 ->
  next_proxy (io 3) = Some i3 -> forwarded (io 3) = Responded resp3 ->
  blocked_response decode resp3 ->
  let out := handle_http_request l in
  let logged := log_calls (calls out) in
  mark_block_calls (calls out)
    = [(pi_ip i1, pi_port i1, _extract_domain url);
       (pi_ip i2, pi_port i2, _extract_domain url);
       (pi_ip i3, pi_port i3, _extract_domain url)]
  /\ log_attempt <$> logged = [1; 2; 3]
  /\ log_blocked <$> logged = [true; true; true]
  /\ log_status <$> logged
     = [status_code resp1; status_code resp2; status_code resp3]
  /\ log_proxy_ip <$> logged
     = [(pi_ip i1, pi_port i1); (pi_ip i2, pi_port i2);
        (pi_ip i3, pi_port i3)]
  /\ live_requests (store out) = (live_requests l ++ logged)%list
  /\ request_log (store out)
     = take 500 (rev logged ++ request_log l)%list
  /\ reply out = (status_code resp3, resp_headers resp3, content resp3)
  /\ returned_at out = BlockedLastAttempt.
Proof.
  unfold blocked_response. intros N1 F1 B1 N2 F2 B2 N3 F3 B3.
  cbn zeta. unfold Gateway.handle_http_request. rewrite range_retries.
  cbn [Gateway.attempts]. rewrite N1, F1, B1.
  rewrite (decide_True (P := 1 < MAX_RETRIES)) by (unfold MAX_RETRIES; lia).
  rewrite N2, F2, B2.
  rewrite (decide_True (P := 2 < MAX_RETRIES)) by (unfold MAX_RETRIES; lia).
  rewrite N3, F3, B3.
  rewrite (decide_False (P := 3 < MAX_RETRIES)) by (unfold MAX_RETRIES; lia).
  cbn [calls store reply returned_at].
  unfold log_request_to_redis. cbn [request_log live_requests].
  repeat split; try reflexivity.
  - rewrite <- !app_assoc. reflexivity.
  - cbn. rewrite !take_take. reflexivity.
Qed.

End GatewayFacts.

Lemma handle_http_request_all_blocked_witness :
  let out :=
    Gateway.handle_http_request (fun s => s) (fun _ => "example.com"%string)
      "GET" "http://example.com/" [] None Samples.always_403
      (Gateway.Live [] []) in
  let logged := Calls.log_calls (Gateway.calls out) in
  Calls.mark_block_calls (Gateway.calls out)
    = [("9.9.9.9"%string, 3128, "example.com"%string);
       ("9.9.9.9"%string, 3128, "example.com"%string);
       ("9.9.9.9"%string, 3128, "example.com"%string)]
  /\ Gateway.log_attempt <$> logged = [1; 2; 3]
  /\ Gateway.log_blocked <$> logged = [true; true; true]
  /\ Gateway.log_status <$> logged = [403; 403; 403]
  /\ Gateway.log_proxy_ip <$> logged
     = [("9.9.9.9"%string, 3128); ("9.9.9.9"%string, 3128);
        ("9.9.9.9"%string, 3128)]
  /\ Gateway.live_requests (Gateway.store out) = ([] ++ logged)%list
  /\ Gateway.request_log (Gateway.store out)
     = take 500 (rev logged ++ [])%list
  /\ Gateway.reply out
     = (403, [("content-type", "text/html")]%string, "no"%string)
  /\ Gateway.returned_at out = Gateway.BlockedLastAttempt.
Proof.
  exact (handle_http_request_all_blocked
           (fun s => s) (fun _ => "example.com"%string)
           "GET" "http://example.com/" [] None Samples.always_403
           (Gateway.Live [] [])
           (Gateway.ProxyInfo "9.9.9.9" 3128 None)
           (Gateway.ProxyInfo "9.9.9.9" 3128 None)
           (Gateway.ProxyInfo "9.9.9.9" 3128 None)
           Samples.forbidden Samples.forbidden Samples.forbidden
           eq_refl eq_refl eq_refl eq_refl eq_refl eq_refl
           eq_refl eq_refl eq_refl).
Defined.

(** * Further properties *)

(** ** The pool: add, remove, flush *)

Section PoolMoreFacts.
Import Pool Ops PoolProps.

Lemma update_no_fields p : update p no_fields = p.
Proof. by destruct p. Qed.

(** [add_proxy] is insert-if-absent: on a proxy that is already stored
    and without keyword arguments the record, with its counters and its
    score, is returned and stored as it was; the address joins the index,
    leaves the dead set and, unless the score is negative, joins the
    healthy set. *)
Theorem add_proxy_keeps_existing now ip port r p :
  get_proxy ip port r = Some p ->
  exists r',
    add_proxy now ip port no_fields r = Ok (r', p)
    /\ proxies r' = proxies r
    /\ index r' = {[(ip, port)]} ∪ index r
    /\ dead r' = dead r ∖ {[(ip, port)]}
    /\ healthy r' = (if decide (0 ≤ health_score p)%Qc
                    then {[(ip, port)]} ∪ healthy r else healthy r).
Proof.
  unfold get_proxy, get. intros Hp. unfold add_proxy. cbn.
  unfold get. rewrite Hp. cbn. rewrite update_no_fields.
  eexists. split; [reflexivity|].
  case_bool_decide; case_decide; try done; cbn;
    (split; [by apply insert_id|done]).
Qed.

Lemma add_proxy_keeps_existing_witness :
  exists r',
    add_proxy 1%Qc "1.1.1.1" 8080 no_fields Samples.pool_S2
      = Ok (r', Samples.proxy_1111)
    /\ proxies r' = proxies Samples.pool_S2
    /\ index r' = {[("1.1.1.1"%string, 8080)]} ∪ index Samples.pool_S2
    /\ dead r' = dead Samples.pool_S2 ∖ {[("1.1.1.1"%string, 8080)]}
    /\ healthy r'
       = (if decide (0 ≤ health_score Samples.proxy_1111)%Qc
          then {[("1.1.1.1"%string, 8080)]} ∪ healthy Samples.pool_S2
          else healthy Samples.pool_S2).
Proof.
  exact (add_proxy_keeps_existing 1%Qc "1.1.1.1" 8080 Samples.pool_S2
           Samples.proxy_1111 eq_refl).
Defined.

Lemma add_proxy_record now ip port kw r r' p :
  add_proxy now ip port kw r = Ok (r', p) ->
  f_ip kw = None /\ f_port kw = None
  /\ p = match get (ip, port) r with
         | Some existing => update existing kw
         | None =>
             update (Proxy ip port "http" EmptyString 0%Qc 0%Qc now
                           EmptyString 0 0 0 0 now) kw
         end.
Proof.
  intros E. unfold add_proxy, _default_proxy, bind_kwargs in E.
  destruct (f_ip kw) eqn:Ei, (f_port kw) eqn:Eport; try discriminate.
  cbn in E. split; [done|]. split; [done|].
  destruct (get (ip, port) r); cbn in E; rewrite ?Ei, ?Eport in E;
    cbn in E; by injection E as _ <-.
Qed.

(** [add_proxy] raises exactly when a keyword names [ip] or [port].
    Otherwise it stores the record it returns; the address is then in the
    index and not in the dead set, and in the healthy set when the score
    is not negative or it was there before; no other address is touched.
    A new proxy gets zeroed counters and the clock reading as
    [created_at] unless a keyword says otherwise. *)
Theorem add_proxy_effect now ip port kw r :
  match add_proxy now ip port kw r with
  | Raise e =>
      e = TypeError /\ (is_Some (f_ip kw) \/ is_Some (f_port kw))
  | Ok (r', p) =>
      f_ip kw = None /\ f_port kw = None
      /\ get_proxy ip port r' = Some p
      /\ p = match get_proxy ip port r with
             | Some existing => update existing kw
             | None =>
                 update (Proxy ip port "http" EmptyString 0%Qc 0%Qc now
                               EmptyString 0 0 0 0 now) kw
             end
      /\ ((ip, port) ∈ index r')
      /\ ((ip, port) ∉ dead r')
      /\ ((ip, port) ∈ healthy r' <->
          (0 ≤ health_score p)%Qc \/ (ip, port) ∈ healthy r)
      /\ forall b, b <> (ip, port) -> same_at b r r'
  end.
Proof.
  destruct (add_proxy now ip port kw r) as [[r' p]|e] eqn:E.
  - pose proof (add_proxy_ok _ _ _ _ _ _ _ E) as Hr'.
    unfold add_proxy, _default_proxy, bind_kwargs in E.
    destruct (f_ip kw) eqn:Ei, (f_port kw) eqn:Eport; try discriminate.
    cbn in E. unfold get_proxy.
    split; [done|]. split; [done|].
    assert (p = match get (ip, port) r with
                | Some existing => update existing kw
                | None =>
                    update (Proxy ip port "http" EmptyString 0%Qc 0%Qc now
                                  EmptyString 0 0 0 0 now) kw
                end) as Hp.
    { destruct (get (ip, port) r); cbn in E; rewrite ?Ei, ?Eport in E;
        cbn in E; by injection E as _ <-. }
    subst r'.
    clear E. destruct r as [px ix dx hx sx rx cx].
    case_bool_decide as Hs; cbn; unfold get; cbn.
    all: rewrite lookup_insert_eq.
    all: split; [done|]. all: split; [exact Hp|].
    all: split; [set_solver|]. all: split; [set_solver|].
    all: split; [set_solver|].
    all: intros b Hb; unfold same_at; cbn;
      rewrite lookup_insert_ne by done; set_solver.
  - unfold add_proxy, _default_proxy, bind_kwargs in E.
    destruct (f_ip kw) eqn:Ei, (f_port kw) eqn:Eport; cbn in E.
    1-3: injection E as <-; split; [done|]; eauto.
    destruct (get (ip, port) r); cbn in E; rewrite ?Ei, ?Eport in E;
      cbn in E; discriminate.
Qed.

(** [remove_proxy] deletes the record and takes the address out of the
    index, the dead set and the healthy set; it touches no other address,
    and removing twice is removing once. *)
Theorem remove_proxy_effect ip port r :
  let r' := remove_proxy ip port r in
  get_proxy ip port r' = None
  /\ ((ip, port) ∉ index r')
  /\ ((ip, port) ∉ dead r')
  /\ ((ip, port) ∉ healthy r')
  /\ (forall b, b <> (ip, port) -> same_at b r r')
  /\ remove_proxy ip port r' = r'.
Proof.
  destruct r as [px ix dx hx sx rx cx]. cbn. unfold get_proxy, get. cbn.
  rewrite lookup_delete_eq.
  split; [done|]. split; [set_solver|]. split; [set_solver|].
  split; [set_solver|]. split.
  - intros b Hb. unfold same_at. cbn. rewrite lookup_delete_ne by done.
    set_solver.
  - f_equal.
    + apply map_eq. intros b. destruct (decide (b = (ip, port))) as [->|Hb].
      * by rewrite !lookup_delete_eq.
      * by rewrite !lookup_delete_ne.
    + set_solver.
    + set_solver.
    + set_solver.
Qed.

(** [flush_dead] returns how many addresses were dead; afterwards the
    dead set is empty, the index has lost exactly the dead addresses,
    their records are deleted and every other record is kept; the healthy
    set is not read or written. *)
Theorem flush_dead_effect r :
  let r' := (flush_dead r).1 in
  (flush_dead r).2 = dead_count r
  /\ dead_count r' = 0
  /\ dead r' = ∅
  /\ index r' = index r ∖ dead r
  /\ healthy r' = healthy r
  /\ forall a, proxies r' !! a
              = if decide (a ∈ dead r) then None else proxies r !! a.
Proof.
  pose proof (flush_dead_spec r) as (Hp & Hi & Hd & Hh). cbn zeta.
  split.
  { unfold flush_dead, dead_count, scard. cbn [smembers].
    destruct (elements (dead r)) as [|x l] eqn:E.
    - apply elements_empty_inv in E. apply leibniz_equiv in E.
      rewrite E. cbn. by rewrite size_empty.
    - cbn [snd]. rewrite <- E. unfold size, set_size. reflexivity. }
  split.
  { unfold dead_count, scard. cbn [smembers]. rewrite Hd.
    by rewrite size_empty. }
  done.
Qed.

(** *** Invariants of every run *)

Lemma step_keyed o r : keyed r -> keyed (step o r).
Proof.
  intros Hk.
  assert (forall (px : gmap addr proxy) a q,
            (forall b p, px !! b = Some p -> b = (ip p, port p)) ->
            a = (ip q, port q) ->
            forall b p, <[a := q]> px !! b = Some p -> b = (ip p, port p))
    as Hins.
  { intros px a q Hpx Ha b p. destruct (decide (b = a)) as [->|Hne].
    - rewrite lookup_insert_eq. by intros [= <-].
    - rewrite lookup_insert_ne by done. apply Hpx. }
  destruct o as [now ip port kw|now ps|now ip port lat|now ip port
                |ip port|ip port|]; cbn [step].
  - destruct (add_proxy now ip port kw r) as [[r' p]|e] eqn:E; [|done].
    pose proof (add_proxy_ok _ _ _ _ _ _ _ E) as ->.
    apply add_proxy_record in E as (Ei & Eport & Hp).
    assert ((ip, port) = (Pool.ip p, Pool.port p)) as Ha.
    { subst p. destruct (get (ip, port) r) as [ex|] eqn:G.
      - cbn. rewrite Ei, Eport. cbn. by apply Hk.
      - cbn. by rewrite Ei, Eport. }
    unfold keyed in *. destruct r as [px ix dx hx sx rx cx].
    case_bool_decide; cbn in *; by apply Hins.
  - destruct (bulk_add now ps r) as [[r' n]|e] eqn:E; [|done].
    by apply bulk_add_ok in E as (_ & -> & _).
  - unfold record_success. destruct (get (ip, port) r) as [p|] eqn:G;
      [|done].
    pose proof (Hk _ _ G) as Ha. unfold keyed in *.
    destruct r as [px ix dx hx sx rx cx]. cbn in *. by apply Hins.
  - unfold record_failure. destruct (get (ip, port) r) as [p|] eqn:G;
      [|done].
    pose proof (Hk _ _ G) as Ha. unfold keyed in *.
    destruct r as [px ix dx hx sx rx cx].
    case_bool_decide; cbn in *; by apply Hins.
  - unfold keyed in *. by destruct r.
  - unfold keyed in *. destruct r as [px ix dx hx sx rx cx]. cbn.
    intros b p. destruct (decide (b = (ip, port))) as [->|Hne].
    + by rewrite lookup_delete_eq.
    + rewrite lookup_delete_ne by done. apply Hk.
  - pose proof (flush_dead_spec r) as (Hp & _). unfold keyed in *.
    intros b p. rewrite Hp. case_decide; [done|]. apply Hk.
Qed.

Lemma run_keyed ops r : keyed r -> keyed (run ops r).
Proof.
  revert r. induction ops as [|o ops IH]; intros r Hk; [done|].
  cbn. apply IH. by apply step_keyed.
Qed.

(** Whatever the pool operations and their arguments, a run from the
    empty pool stores every record under its own address: the [ip] and
    [port] fields of a record are the address it is filed under, so
    [(ip, port)] identifies one record, and looking a stored record up
    by its own [ip] and [port] finds that record. *)
Theorem records_are_keyed ops :
  keyed (run ops empty_redis)
  /\ forall a p, proxies (run ops empty_redis) !! a = Some p ->
                 get_proxy (ip p) (port p) (run ops empty_redis) = Some p.
Proof.
  assert (keyed (run ops empty_redis)) as Hk.
  { apply run_keyed. intros a p H. cbn in H. by rewrite lookup_empty in H. }
  split; [exact Hk|]. intros a p H. unfold get_proxy, get.
  by rewrite <- (Hk a p H).
Qed.

Lemma reachable_well_formed r : reachable r -> well_formed r.
Proof.
  induction 1 as [|r o _ IH Hm]; [apply well_formed_empty|].
  by apply step_well_formed.
Qed.

(** [healthy_count] is computed from the index and the dead set, not
    from the healthy set.  When every dead address is in the index and no
    healthy address is dead or outside the index, the three counters add
    up, [pool_size = healthy_count + dead_count], and [healthy_count] is
    at least the size of the healthy set (it also counts proxies that are
    in neither set). *)
Theorem pool_counts r :
  healthy_ok r -> dead_ok r ->
  pool_size r = healthy_count r + dead_count r
  /\ Z.of_nat (size (healthy r)) ≤ healthy_count r
  /\ healthy_count r = Z.of_nat (size (index r ∖ dead r)).
Proof.
  intros Hh Hd. unfold pool_size, healthy_count, dead_count, scard.
  cbn [smembers].
  assert (dead r ⊆ index r) as Hsub by (intros a Ha; by apply Hd).
  assert (healthy r ⊆ index r ∖ dead r) as Hsub2.
  { intros a Ha. destruct (Hh a Ha). set_solver. }
  assert (size (index r) = (size (dead r) + size (index r ∖ dead r))%nat)
    as Hsize.
  { rewrite <- size_union by set_solver.
    f_equal. apply leibniz_equiv. intros a. split; [|set_solver].
    intros Ha. destruct (decide (a ∈ dead r)); set_solver. }
  apply subseteq_size in Hsub2. lia.
Qed.

Lemma pool_two_reachable : reachable MoreSamples.pool_two.
Proof.
  unfold MoreSamples.pool_two.
  apply reach_step; [|exact I].
  apply reach_step; [|vm_compute; reflexivity].
  apply reach_step; [|cbn; repeat split; try lia; vm_compute; discriminate].
  apply reach_step; [apply reach_empty|].
  cbn. repeat split; try lia; vm_compute; discriminate.
Qed.

Lemma pool_counts_witness :
  pool_size MoreSamples.pool_two
    = healthy_count MoreSamples.pool_two + dead_count MoreSamples.pool_two
  /\ Z.of_nat (size (healthy MoreSamples.pool_two))
     ≤ healthy_count MoreSamples.pool_two
  /\ healthy_count MoreSamples.pool_two
     = Z.of_nat (size (index MoreSamples.pool_two
                       ∖ dead MoreSamples.pool_two)).
Proof.
  exact (pool_counts MoreSamples.pool_two
           (proj1 (reachable_well_formed _ pool_two_reachable))
           (proj1 (proj2 (reachable_well_formed _ pool_two_reachable)))).
Defined.



End PoolMoreFacts.

(** ** The strategies: what a selection returns and what it keeps *)

Section StrategyMoreFacts.
Import Pool Strategies Selecting PoolProps Rounds.

Lemma Qcmax_ge_1 q : (1 ≤ Qcmax q 1)%Qc.
Proof.
  unfold Qcmax. case_decide as H; [apply Qcle_refl|]. by apply Qcle_ngt.
Qed.

Lemma accumulate_last acc ws d :
  (0 ≤ acc)%Qc -> ws <> [] -> Forall (fun w => (1 ≤ w)%Qc) ws ->
  (0 < List.last (accumulate acc ws) d)%Qc.
Proof.
  revert acc. induction ws as [|w ws IH]; intros acc Hacc Hne Hall; [done|].
  apply Forall_cons in Hall as [Hw Hall].
  assert (0 < acc + w)%Qc as Hpos.
  { apply Qclt_le_trans with (1 := eq_refl : (0 < 1)%Qc).
    rewrite <- (Qcplus_0_l 1). by apply Qcplus_le_compat. }
  cbn [accumulate]. destruct ws as [|w' ws]; [exact Hpos|].
  change (List.last ((acc + w)%Qc :: accumulate (acc + w)%Qc (w' :: ws)) d)
    with (List.last (accumulate (acc + w)%Qc (w' :: ws)) d).
  apply IH; [by apply Qclt_le_weak|done|done].
Qed.

Lemma bisect_le a x hi : (bisect a x hi <= hi)%nat.
Proof.
  unfold bisect. etrans; [apply length_filter|]. rewrite length_take. lia.
Qed.

Lemma choices_ok {A} rnd (x : A) (l : list A) (weights : list Qc) :
  weights <> [] -> Forall (fun w => (1 ≤ w)%Qc) weights ->
  exists y, choices rnd (x :: l) weights = Ok y /\ y ∈ x :: l.
Proof.
  intros Hne Hall. unfold choices.
  rewrite decide_False.
  2: { apply Qclt_not_le. by apply accumulate_last. }
  set (i := bisect _ _ _).
  assert (i <= length (x :: l) - 1)%nat as Hi by apply bisect_le.
  destruct ((x :: l) !! i) as [y|] eqn:E.
  - exists y. split; [done|]. by eapply list_elem_of_lookup_2.
  - apply lookup_ge_None in E. cbn [length] in *. lia.
Qed.

Lemma per_request_total rnd ctx r :
  match get_healthy_proxies 0%Qc r with
  | [] => PerRequestStrategy_select rnd ctx r = Ok (r, None)
  | _ :: _ =>
      exists p, PerRequestStrategy_select rnd ctx r = Ok (r, Some p)
                /\ p ∈ get_healthy_proxies 0%Qc r
  end.
Proof.
  unfold PerRequestStrategy_select.
  destruct (get_healthy_proxies 0%Qc r) as [|q l] eqn:E; [done|].
  destruct (choices_ok rnd q l
              ((fun p => Qcmax (health_score p) 1%Qc) <$> q :: l))
    as (y & Hy & Hin).
  - done.
  - apply Forall_fmap, Forall_forall. intros p _. apply Qcmax_ge_1.
  - exists y. rewrite Hy. by split.
Qed.

(** Per-request selection on a non-empty healthy list never raises:
    every weight is [max(health_score, 1)], so the total weight is
    positive and the drawn position is inside the list.  It returns a
    record of the healthy list and leaves the store as it was. *)
Theorem per_request_selects_healthy rnd ctx r :
  match get_healthy_proxies 0%Qc r with
  | [] => PerRequestStrategy_select rnd ctx r = Ok (r, None)
  | _ :: _ =>
      exists p, PerRequestStrategy_select rnd ctx r = Ok (r, Some p)
                /\ p ∈ get_healthy_proxies 0%Qc r
  end.
Proof. apply per_request_total. Qed.

Lemma choice_ok {A} rnd (x : A) l :
  exists y, choice rnd (x :: l) = Ok y /\ y ∈ x :: l.
Proof.
  unfold choice.
  destruct ((x :: l) !! (random_bits rnd mod length (x :: l))%nat)
    as [y|] eqn:E.
  - exists y. split; [done|]. by eapply list_elem_of_lookup_2.
  - apply lookup_ge_None in E.
    pose proof (Nat.mod_upper_bound (random_bits rnd) (length (x :: l))) as H.
    cbn [length] in *. lia.
Qed.




(** *** Sticky strategies *)

(** On-block keeps its proxy: once a selection has returned [p], every
    further selection returns [p] and changes nothing, as long as the
    address of [p] is not in the dead set. *)
Theorem on_block_sticky ctx ctx' r r1 p :
  OnBlockStrategy_select ctx r = Ok (r1, Some p) ->
  is_dead p r1 = false ->
  OnBlockStrategy_select ctx' r1 = Ok (r1, Some p).
Proof.
  unfold OnBlockStrategy_select. intros H D.
  assert (on_block_current_proxy (cfg r1) = Some p) as Hc.
  { destruct (on_block_current_proxy (cfg r)) as [c|] eqn:C.
    - destruct (is_dead c r).
      + destruct (get_healthy_proxies 0%Qc r); [discriminate|].
        by injection H as <- <-.
      + injection H as <- <-. exact C.
    - destruct (get_healthy_proxies 0%Qc r); [discriminate|].
      by injection H as <- <-. }
  by rewrite Hc, D.
Qed.

Lemma on_block_sticky_witness :
  OnBlockStrategy_select Samples.no_context MoreSamples.pool_S2_on_block
  = Ok (MoreSamples.pool_S2_on_block, Some Samples.proxy_1111).
Proof.
  refine (on_block_sticky Samples.no_context Samples.no_context
            Samples.pool_S2 _ Samples.proxy_1111 _ _).
  - vm_compute. reflexivity.
  - vm_compute. reflexivity.
Defined.

(** On-block rotates on a block: after [mark_dead] on the persisted
    proxy, the next selection returns the first record of the healthy
    list and persists it; in a store whose records are filed under their
    own address that record has another address than the blocked one. *)
Theorem on_block_rotates ctx r c :
  on_block_current_proxy (cfg r) = Some c ->
  keyed r ->
  let r' := mark_dead (ip c) (port c) r in
  match get_healthy_proxies 0%Qc r' with
  | [] => OnBlockStrategy_select ctx r' = Ok (r', None)
  | p :: _ =>
      exists r'',
        OnBlockStrategy_select ctx r' = Ok (r'', Some p)
        /\ on_block_current_proxy (cfg r'') = Some p
        /\ (ip p, port p) <> (ip c, port c)
  end.
Proof.
  intros Hc Hk. cbn zeta. unfold OnBlockStrategy_select.
  assert (on_block_current_proxy (cfg (mark_dead (ip c) (port c) r))
          = Some c) as -> by (by destruct r).
  assert (is_dead c (mark_dead (ip c) (port c) r) = true) as ->.
  { unfold is_dead, sismember. apply bool_decide_eq_true.
    destruct r. cbn. set_solver. }
  destruct (get_healthy_proxies 0%Qc (mark_dead (ip c) (port c) r))
    as [|p l] eqn:E; [done|].
  eexists. split; [reflexivity|]. split; [done|].
  assert (p ∈ get_healthy_proxies 0%Qc (mark_dead (ip c) (port c) r))
    as Hin by (rewrite E; set_solver).
  apply get_healthy_proxies_elem in Hin as (a & Ha & Hp & _).
  assert (a = (ip p, port p)) as <-.
  { apply Hk. by destruct r. }
  intros ->. destruct r. cbn in Ha. set_solver.
Qed.

Lemma pool_S2_keyed : keyed MoreSamples.pool_S2_on_block.
Proof.
  intros a p. unfold MoreSamples.pool_S2_on_block, Samples.pool_S2. cbn.
  destruct (decide (a = ("2.2.2.2"%string, 3128))) as [->|H2].
  { rewrite lookup_insert_eq. by intros [= <-]. }
  rewrite lookup_insert_ne by done.
  destruct (decide (a = ("1.1.1.1"%string, 8080))) as [->|H1].
  { rewrite lookup_insert_eq. by intros [= <-]. }
  rewrite lookup_insert_ne by done. by rewrite lookup_empty.
Qed.

Lemma on_block_rotates_witness :
  let r' := mark_dead "1.1.1.1" 8080 MoreSamples.pool_S2_on_block in
  match get_healthy_proxies 0%Qc r' with
  | [] => OnBlockStrategy_select Samples.no_context r' = Ok (r', None)
  | p :: _ =>
      exists r'',
        OnBlockStrategy_select Samples.no_context r' = Ok (r'', Some p)
        /\ on_block_current_proxy (cfg r'') = Some p
        /\ (ip p, port p) <> ("1.1.1.1"%string, 8080)
  end.
Proof.
  exact (on_block_rotates Samples.no_context MoreSamples.pool_S2_on_block
           Samples.proxy_1111 eq_refl pool_S2_keyed).
Defined.



(** Without a session id (none, or the empty string) per-session pins
    nothing: the selection leaves the store as it was. *)
Theorem per_session_without_id rnd ctx r :
  truthy (session_id ctx) = None ->
  exists o, PerSessionStrategy_select rnd ctx r = Ok (r, o).
Proof.
  unfold PerSessionStrategy_select. intros ->.
  destruct (get_healthy_proxies 0%Qc r) as [|q l]; [by eexists|].
  destruct (choice_ok rnd q l) as (y & -> & _). by eexists.
Qed.

Lemma per_session_without_id_witness :
  exists o,
    PerSessionStrategy_select Samples.some_random Samples.no_context
      Samples.pool_S2 = Ok (Samples.pool_S2, o).
Proof.
  exact (per_session_without_id Samples.some_random Samples.no_context
           Samples.pool_S2 eq_refl).
Defined.

(** Time-based keeps its proxy for the rotation interval: after a
    selection at [now] has picked [p] from the healthy list, a selection
    at a time [later] with [later - now < rotation_interval] returns [p]
    again and changes nothing, as long as the address of [p] is not in
    the dead set. *)
Theorem time_based_sticky now later rnd rnd' ctx r r1 p :
  TimeBasedStrategy_select now rnd ctx r = Ok (r1, Some p) ->
  time_based_last_rotation (cfg r1) = Some now ->
  (later - now < Qc_of_Z (default 30 (rotation_interval ctx)))%Qc ->
  is_dead p r1 = false ->
  TimeBasedStrategy_select later rnd' ctx r1 = Ok (r1, Some p).
Proof.
  unfold TimeBasedStrategy_select. intros H Hl Ht D.
  assert (time_based_current_proxy (cfg r1) = Some p) as Hc.
  { destruct (time_based_current_proxy (cfg r)) as [c|] eqn:C.
    - case_bool_decide.
      + destruct (is_dead c r).
        * destruct (get_healthy_proxies 0%Qc r) as [|q l]; [discriminate|].
          destruct (choice_ok rnd q l) as (y & Hy & _). rewrite Hy in H.
          cbn in H. by injection H as <- <-.
        * injection H as <- <-. exact C.
      + destruct (get_healthy_proxies 0%Qc r) as [|q l]; [discriminate|].
        destruct (choice_ok rnd q l) as (y & Hy & _). rewrite Hy in H.
        cbn in H. by injection H as <- <-.
    - destruct (get_healthy_proxies 0%Qc r) as [|q l]; [discriminate|].
      destruct (choice_ok rnd q l) as (y & Hy & _). rewrite Hy in H.
      cbn in H. by injection H as <- <-. }
  rewrite Hc, Hl. cbn [default]. rewrite bool_decide_true by exact Ht.
  by rewrite D.
Qed.

Lemma time_based_sticky_witness :
  exists r1 p,
    TimeBasedStrategy_select (Qc_of_Z 100) Samples.some_random
      Samples.no_context Samples.pool_S2 = Ok (r1, Some p)
    /\ time_based_last_rotation (cfg r1) = Some (Qc_of_Z 100)
    /\ TimeBasedStrategy_select (Qc_of_Z 110) (Random 0%Qc 1)
         Samples.no_context r1 = Ok (r1, Some p).
Proof.
  eexists _, _. split; [vm_compute; reflexivity|]. split; [reflexivity|].
  refine (time_based_sticky (Qc_of_Z 100) (Qc_of_Z 110)
            Samples.some_random (Random 0%Qc 1) Samples.no_context
            Samples.pool_S2 _ _ _ _ _ _).
  - vm_compute. reflexivity.
  - reflexivity.
  - vm_compute. reflexivity.
  - vm_compute. reflexivity.
Defined.

(** Time-based rotates when the interval has elapsed (or nothing is
    persisted yet): with a non-empty healthy list the selection returns a
    record of that list and persists it together with the clock reading
    as the new rotation time. *)
Theorem time_based_rotates now rnd ctx r :
  ~ (now - default 0%Qc (time_based_last_rotation (cfg r))
     < Qc_of_Z (default 30 (rotation_interval ctx)))%Qc ->
  get_healthy_proxies 0%Qc r <> [] ->
  exists r' p,
    TimeBasedStrategy_select now rnd ctx r = Ok (r', Some p)
    /\ p ∈ get_healthy_proxies 0%Qc r
    /\ time_based_current_proxy (cfg r') = Some p
    /\ time_based_last_rotation (cfg r') = Some now.
Proof.
  intros Ht Hne. unfold TimeBasedStrategy_select.
  rewrite bool_decide_false by exact Ht.
  assert (match time_based_current_proxy (cfg r) with
          | Some _ => None
          | None => None
          end = @None proxy) as -> by (by destruct (time_based_current_proxy _)).
  destruct (get_healthy_proxies 0%Qc r) as [|q l]; [done|].
  destruct (choice_ok rnd q l) as (y & -> & Hin). cbn.
  by eexists _, y.
Qed.

Lemma time_based_rotates_witness :
  exists r' p,
    TimeBasedStrategy_select (Qc_of_Z 100) Samples.some_random
      Samples.no_context Samples.pool_S2 = Ok (r', Some p)
    /\ p ∈ get_healthy_proxies 0%Qc Samples.pool_S2
    /\ time_based_current_proxy (cfg r') = Some p
    /\ time_based_last_rotation (cfg r') = Some (Qc_of_Z 100).
Proof.
  refine (time_based_rotates (Qc_of_Z 100) Samples.some_random
            Samples.no_context Samples.pool_S2 _ _).
  - vm_compute. intros H. discriminate H.
  - vm_compute. discriminate.
Defined.

(** *** Round-robin in a row *)

Lemma round_robin_many_spec k ctx r :
  0 ≤ get_rr_index r ->
  get_healthy_proxies 0%Qc r <> [] ->
  let l := get_healthy_proxies 0%Qc r in
  let n := length l in
  let j0 := start n (get_rr_index r) in
  exists r',
    round_robin_many k ctx r
      = Ok (r', (fun i => l !! ((j0 + i) mod n)%nat) <$> seq 0 k)
    /\ get_healthy_proxies 0%Qc r' = l
    /\ 0 ≤ get_rr_index r'.
Proof.
  revert r. induction k as [|k IH]; intros r Hidx Hne; cbn zeta.
  { exists r. by repeat split. }
  destruct (round_robin_step ctx r Hidx Hne) as (p & L & E).
  cbn zeta in L, E. cbn [round_robin_many]. rewrite E. cbn.
  set (l := get_healthy_proxies 0%Qc r) in *.
  set (n := length l) in *.
  assert (0 < n)%nat as Hn.
  { unfold n. destruct l; [done|]. cbn. lia. }
  set (j := if decide (Z.of_nat n ≤ get_rr_index r) then 0
            else get_rr_index r) in *.
  assert (0 ≤ j) as Hj0 by (unfold j; case_decide; lia).
  assert (Z.to_nat j = start n (get_rr_index r)) as Hj.
  { unfold j, start. by case_decide. }
  assert (start n (get_rr_index r) < n)%nat as Hlt.
  { rewrite <- Hj. unfold j. case_decide; lia. }
  destruct (IH (set_rr_index (j + 1) r)) as (r' & E' & Hl' & Hi').
  { cbn. lia. }
  { by rewrite get_healthy_proxies_set_rr_index. }
  rewrite get_healthy_proxies_set_rr_index in E', Hl'.
  fold l n in E', Hl'. rewrite E'. cbn.
  exists r'. split; [|by split]. f_equal. f_equal.
  rewrite <- fmap_S_seq, <- list_fmap_compose. cbn [seq fmap list_fmap].
  f_equal.
  - rewrite Nat.add_0_r, Nat.mod_small by exact Hlt. by rewrite <- Hj.
  - apply list_fmap_ext. intros _ i _. cbn. f_equal.
    assert (start n (j + 1)
            = ((start n (get_rr_index r) + 1) mod n)%nat) as ->.
    { unfold start at 1. rewrite <- Hj. case_decide as Hd.
      - assert (Z.to_nat j + 1 = n)%nat as -> by lia.
        by rewrite Nat.Div0.mod_same.
      - rewrite Nat.mod_small by lia. lia. }
    rewrite Nat.Div0.add_mod_idemp_l. f_equal. lia.
Qed.

(** Round-robin cycles: with a non-empty healthy list of length [n] and
    a cursor that is not negative, [k] selections in a row return the
    records at positions [j, j+1, ...] of the healthy list, wrapping
    around modulo [n], where [j] is the cursor (0 when the cursor is [n]
    or more).  Selections do not change the healthy list.  From cursor 0,
    [n] selections return the whole list in order and the next [n]
    repeat it. *)
Theorem round_robin_cycle k ctx r :
  0 ≤ get_rr_index r ->
  get_healthy_proxies 0%Qc r <> [] ->
  let l := get_healthy_proxies 0%Qc r in
  let n := length l in
  let j0 := start n (get_rr_index r) in
  (exists r',
     round_robin_many k ctx r
       = Ok (r', (fun i => l !! ((j0 + i) mod n)%nat) <$> seq 0 k)
     /\ get_healthy_proxies 0%Qc r' = l)
  /\ (get_rr_index r = 0 ->
      exists r', round_robin_many (n + n) ctx r
                 = Ok (r', Some <$> (l ++ l)%list)).
Proof.
  intros Hidx Hne. cbn zeta. split.
  - destruct (round_robin_many_spec k ctx r Hidx Hne)
      as (r' & E & Hl & _). by exists r'.
  - intros H0.
    destruct (round_robin_many_spec
                (length (get_healthy_proxies 0%Qc r)
                 + length (get_healthy_proxies 0%Qc r)) ctx r Hidx Hne)
      as (r' & E & _). exists r'. rewrite E. f_equal. f_equal.
    set (l := get_healthy_proxies 0%Qc r) in *.
    assert (0 < length l)%nat as Hn by (destruct l; [done|cbn; lia]).
    rewrite H0. unfold start. rewrite decide_False by lia.
    change (Z.to_nat 0) with 0%nat.
    rewrite seq_app, !fmap_app. cbn [Nat.add]. f_equal.
    + apply list_eq. intros i. rewrite !list_lookup_fmap.
      destruct (decide (i < length l)%nat) as [Hi|Hi].
      * rewrite lookup_seq_lt by done. cbn.
        rewrite Nat.mod_small by done.
        destruct (lookup_lt_is_Some_2 l i Hi) as [x Hx].
        cbn. by rewrite Hx.
      * rewrite lookup_seq_ge by lia. by rewrite lookup_ge_None_2 by lia.
    + apply list_eq. intros i. rewrite !list_lookup_fmap.
      destruct (decide (i < length l)%nat) as [Hi|Hi].
      * rewrite lookup_seq_lt by done. cbn.
        replace (length l + i)%nat with (i + 1 * length l)%nat by lia.
        rewrite Nat.Div0.mod_add, Nat.mod_small by done.
        destruct (lookup_lt_is_Some_2 l i Hi) as [x Hx].
        cbn. by rewrite Hx.
      * rewrite lookup_seq_ge by lia. by rewrite lookup_ge_None_2 by lia.
Qed.

Lemma round_robin_cycle_witness :
  let l := get_healthy_proxies 0%Qc Samples.pool_S2 in
  let n := length l in
  let j0 := start n (get_rr_index Samples.pool_S2) in
  (exists r',
     round_robin_many 5 Samples.no_context Samples.pool_S2
       = Ok (r', (fun i => l !! ((j0 + i) mod n)%nat) <$> seq 0 5)
     /\ get_healthy_proxies 0%Qc r' = l)
  /\ (get_rr_index Samples.pool_S2 = 0 ->
      exists r', round_robin_many (n + n) Samples.no_context Samples.pool_S2
                 = Ok (r', Some <$> (l ++ l)%list)).
Proof.
  refine (round_robin_cycle 5 Samples.no_context Samples.pool_S2 _ _).
  - vm_compute. discriminate.
  - vm_compute. discriminate.
Defined.

End StrategyMoreFacts.

(** ** The health checker against the pool *)

Section HealthCheckerMoreFacts.
Import Pool Ops PoolProps.

Lemma redis_eq r1 r2 :
  proxies r1 = proxies r2 -> index r1 = index r2 -> dead r1 = dead r2 ->
  healthy r1 = healthy r2 -> sessions r1 = sessions r2 ->
  rr_index r1 = rr_index r2 -> cfg r1 = cfg r2 -> r1 = r2.
Proof. destruct r1, r2. cbn. by intros -> -> -> -> -> -> ->. Qed.

Lemma check_pass_as_pool_op now latency p r existing :
  HealthChecker.get_proxy (ip p) (port p) r = Some existing ->
  (ip existing, port existing) = (ip p, port p) ->
  HealthChecker.check_single_proxy now (HealthChecker.Pass latency) p r
  = ((record_success now (ip p) (port p) latency r).1, true).
Proof.
  unfold HealthChecker.get_proxy. intros Hex [= Hip Hport].
  unfold HealthChecker.check_single_proxy, HealthChecker.get_proxy,
    record_success. rewrite Hex.
  unfold HealthChecker.save_proxy, HealthChecker.passed.
  cbn [ip port consecutive_fails]. rewrite Hip, Hport.
  rewrite decide_True by done. reflexivity.
Qed.

Lemma check_fail_as_pool_ops now p r existing :
  HealthChecker.get_proxy (ip p) (port p) r = Some existing ->
  (ip existing, port existing) = (ip p, port p) ->
  HealthChecker.check_single_proxy now HealthChecker.Fail p r
  = (let r1 := (record_failure now (ip p) (port p) r).1 in
     if decide (3 ≤ consecutive_fails existing + 1)
     then remove_proxy (ip p) (port p) r1
     else mark_dead (ip p) (port p) r1,
     false).
Proof.
  unfold HealthChecker.get_proxy. intros Hex [= Hip Hport].
  unfold HealthChecker.check_single_proxy, HealthChecker.get_proxy,
    record_failure. rewrite Hex. cbn zeta.
  unfold HealthChecker.save_proxy, HealthChecker.failed.
  cbn [ip port consecutive_fails]. rewrite Hip, Hport.
  destruct r as [px ix dx hx sx rx cx].
  destruct (decide (3 ≤ consecutive_fails existing + 1)) as [H3|H3].
  - rewrite !bool_decide_true by done.
    rewrite (decide_False (P := consecutive_fails existing + 1 = 0)) by lia.
    cbn. f_equal. apply redis_eq; cbn; try done; set_solver.
  - rewrite !bool_decide_false by done.
    destruct (decide (consecutive_fails existing + 1 = 0)); cbn;
      [|reflexivity].
    f_equal. apply redis_eq; cbn; try done.
    + apply set_eq. intros x.
      destruct (decide (x = (ip p, port p))); set_solver.
    + set_solver.
Qed.

(** A passed probe of a stored proxy has exactly the effect of the
    pool's [record_success] with the measured latency, and reports
    [True].  The record is taken to be stored under its own address. *)
Theorem check_pass_is_record_success now latency p r existing :
  HealthChecker.get_proxy (ip p) (port p) r = Some existing ->
  (ip existing, port existing) = (ip p, port p) ->
  HealthChecker.check_single_proxy now (HealthChecker.Pass latency) p r
  = ((record_success now (ip p) (port p) latency r).1, true).
Proof. apply check_pass_as_pool_op. Qed.

Lemma check_pass_is_record_success_witness :
  HealthChecker.check_single_proxy 1%Qc (HealthChecker.Pass (Qc_of_Z 42))
    Samples.proxy_1111 Samples.pool_S2
  = ((record_success 1%Qc "1.1.1.1" 8080 (Qc_of_Z 42) Samples.pool_S2).1,
     true).
Proof.
  exact (check_pass_is_record_success 1%Qc (Qc_of_Z 42) Samples.proxy_1111
           Samples.pool_S2 Samples.proxy_1111 eq_refl eq_refl).
Defined.

(** A failed probe of a stored proxy has the effect of the pool's
    [record_failure] followed by [remove_proxy] when the new
    [consecutive_fails] reaches 3, and by [mark_dead] otherwise: unlike
    the pool, which keeps a proxy healthy until its third failure, the
    health checker moves it to the dead set at the first one (the effect
    the rotation engine's [mark-block] has on the pool).  It reports
    [False]. *)
Theorem check_fail_is_record_failure_then now p r existing :
  HealthChecker.get_proxy (ip p) (port p) r = Some existing ->
  (ip existing, port existing) = (ip p, port p) ->
  let out := HealthChecker.check_single_proxy now HealthChecker.Fail p r in
  let r1 := (record_failure now (ip p) (port p) r).1 in
  out = (if decide (3 ≤ consecutive_fails existing + 1)
         then remove_proxy (ip p) (port p) r1
         else mark_dead (ip p) (port p) r1, false)
  /\ (consecutive_fails existing + 1 < 3 ->
      (ip p, port p) ∈ dead out.1 /\ (ip p, port p) ∉ healthy out.1).
Proof.
  intros Hex Hk. cbn zeta.
  rewrite (check_fail_as_pool_ops now p r existing Hex Hk). cbn zeta.
  split; [done|]. intros Hlt. rewrite decide_False by lia. cbn [fst].
  unfold mark_dead. destruct (record_failure _ _ _ _).1. cbn. set_solver.
Qed.

Lemma check_fail_is_record_failure_then_witness :
  let out :=
    HealthChecker.check_single_proxy 1%Qc HealthChecker.Fail
      Samples.proxy_1111 Samples.pool_S2 in
  let r1 := (record_failure 1%Qc "1.1.1.1" 8080 Samples.pool_S2).1 in
  out = (if decide (3 ≤ 0 + 1)
         then remove_proxy "1.1.1.1" 8080 r1
         else mark_dead "1.1.1.1" 8080 r1, false)
  /\ (0 + 1 < 3 ->
      ("1.1.1.1"%string, 8080) ∈ dead out.1
      /\ ("1.1.1.1"%string, 8080) ∉ healthy out.1).
Proof.
  exact (check_fail_is_record_failure_then 1%Qc Samples.proxy_1111
           Samples.pool_S2 Samples.proxy_1111 eq_refl eq_refl).
Defined.

Lemma check_absent_changes_nothing_helper now outcome p r :
  HealthChecker.get_proxy (ip p) (port p) r = None ->
  (HealthChecker.check_single_proxy now outcome p r).1 = r.
Proof.
  unfold HealthChecker.check_single_proxy. intros ->. by destruct outcome.
Qed.

(** A probe of a proxy whose record is gone changes nothing, whether it
    passes or fails. *)
Theorem check_absent_changes_nothing now outcome p r :
  HealthChecker.get_proxy (ip p) (port p) r = None ->
  (HealthChecker.check_single_proxy now outcome p r).1 = r.
Proof.
  unfold HealthChecker.check_single_proxy. intros ->. by destruct outcome.
Qed.

Lemma check_absent_changes_nothing_witness :
  (HealthChecker.check_single_proxy 1%Qc HealthChecker.Fail
     Samples.fresh_1111 empty_redis).1 = empty_redis.
Proof.
  exact (check_absent_changes_nothing 1%Qc HealthChecker.Fail
           Samples.fresh_1111 empty_redis eq_refl).
Defined.

Lemma same_at_trans b r1 r2 r3 :
  same_at b r1 r2 -> same_at b r2 r3 -> same_at b r1 r3.
Proof.
  unfold same_at. intros (? & ? & ? & ?) (? & ? & ? & ?).
  split; [congruence|]. naive_solver.
Qed.

Lemma check_fail_step now p r existing :
  HealthChecker.get_proxy (ip p) (port p) r = Some existing ->
  (ip existing, port existing) = (ip p, port p) ->
  let r' := (HealthChecker.check_single_proxy now HealthChecker.Fail p r).1 in
  (forall b, b <> (ip p, port p) -> same_at b r r')
  /\ if decide (3 ≤ consecutive_fails existing + 1)
     then HealthChecker.get_proxy (ip p) (port p) r' = None
          /\ ((ip p, port p) ∉ index r') /\ ((ip p, port p) ∉ dead r')
          /\ ((ip p, port p) ∉ healthy r')
     else exists upd,
            HealthChecker.get_proxy (ip p) (port p) r' = Some upd
            /\ (ip upd, port upd) = (ip p, port p)
            /\ consecutive_fails upd = consecutive_fails existing + 1.
Proof.
  intros Hex Hk. cbn zeta.
  rewrite (check_fail_as_pool_ops now p r existing Hex Hk). cbn zeta.
  cbn [fst]. unfold record_failure. unfold HealthChecker.get_proxy in *.
  rewrite Hex. injection Hk as Hip Hport. cbn [fst].
  destruct r as [px ix dx hx sx rx cx]. unfold get in *. cbn in Hex.
  destruct (decide (3 ≤ consecutive_fails existing + 1)) as [H3|H3].
  - rewrite bool_decide_true by done. cbn. split.
    + intros b Hb. unfold same_at. cbn.
      rewrite lookup_delete_ne, lookup_insert_ne by done. set_solver.
    + rewrite lookup_delete_eq. split; [done|]. set_solver.
  - rewrite bool_decide_false by done. cbn. split.
    + intros b Hb. unfold same_at. cbn.
      rewrite lookup_insert_ne by done. set_solver.
    + eexists. rewrite lookup_insert_eq. split; [done|]. cbn.
      by rewrite Hip, Hport.
Qed.

(** Three failed probes in a row of a stored proxy whose
    [consecutive_fails] was 0 remove it: the record is deleted and the
    address is in none of the index, the dead set and the healthy set,
    while no other address is touched.  The removal does not ban the
    proxy: a later [add_proxy] of the same address stores a new record
    with zeroed counters and puts the address back in the index and the
    healthy set. *)
Theorem three_failed_probes_remove now1 now2 now3 now4 p r existing :
  HealthChecker.get_proxy (ip p) (port p) r = Some existing ->
  (ip existing, port existing) = (ip p, port p) ->
  consecutive_fails existing = 0 ->
  let check now r :=
    (HealthChecker.check_single_proxy now HealthChecker.Fail p r).1 in
  let r3 := check now3 (check now2 (check now1 r)) in
  HealthChecker.get_proxy (ip p) (port p) r3 = None
  /\ ((ip p, port p) ∉ index r3)
  /\ ((ip p, port p) ∉ dead r3)
  /\ ((ip p, port p) ∉ healthy r3)
  /\ (forall b, b <> (ip p, port p) -> same_at b r r3)
  /\ exists r4 fresh,
       add_proxy now4 (ip p) (port p) no_fields r3 = Ok (r4, fresh)
       /\ total_checks fresh = 0 /\ fail_count fresh = 0
       /\ consecutive_fails fresh = 0 /\ created_at fresh = now4
       /\ ((ip p, port p) ∈ index r4) /\ ((ip p, port p) ∈ healthy r4).
Proof.
  intros Hex Hk Hc. cbn zeta.
  pose proof (check_fail_step now1 p r existing Hex Hk) as [F1 S1].
  cbn zeta in *. rewrite decide_False in S1 by lia.
  destruct S1 as (u1 & G1 & K1 & C1).
  set (r1 := (HealthChecker.check_single_proxy now1 _ p r).1) in *.
  pose proof (check_fail_step now2 p r1 u1 G1 K1) as [F2 S2].
  cbn zeta in *. rewrite decide_False in S2 by lia.
  destruct S2 as (u2 & G2 & K2 & C2).
  set (r2 := (HealthChecker.check_single_proxy now2 _ p r1).1) in *.
  pose proof (check_fail_step now3 p r2 u2 G2 K2) as [F3 S3].
  cbn zeta in *. rewrite decide_True in S3 by lia.
  destruct S3 as (G3 & I3 & D3 & H3).
  set (r3 := (HealthChecker.check_single_proxy now3 _ p r2).1) in *.
  split; [done|]. split; [done|]. split; [done|]. split; [done|]. split.
  { intros b Hb. eapply same_at_trans; [by apply F1|].
    eapply same_at_trans; [by apply F2|]. by apply F3. }
  unfold HealthChecker.get_proxy in G3.
  unfold add_proxy. cbn. rewrite G3. cbn.
  eexists _, _. split; [reflexivity|]. cbn.
  rewrite bool_decide_true by done. destruct r3. cbn. set_solver.
Qed.

Lemma three_failed_probes_remove_witness :
  let check now r :=
    (HealthChecker.check_single_proxy now HealthChecker.Fail
       Samples.proxy_1111 r).1 in
  let r3 := check 1%Qc (check 1%Qc (check 1%Qc Samples.pool_S2)) in
  HealthChecker.get_proxy "1.1.1.1" 8080 r3 = None
  /\ (("1.1.1.1"%string, 8080) ∉ index r3)
  /\ (("1.1.1.1"%string, 8080) ∉ dead r3)
  /\ (("1.1.1.1"%string, 8080) ∉ healthy r3)
  /\ (forall b, b <> ("1.1.1.1"%string, 8080) ->
                same_at b Samples.pool_S2 r3)
  /\ exists r4 fresh,
       add_proxy 1%Qc "1.1.1.1" 8080 no_fields r3 = Ok (r4, fresh)
       /\ total_checks fresh = 0 /\ fail_count fresh = 0
       /\ consecutive_fails fresh = 0 /\ created_at fresh = 1%Qc
       /\ (("1.1.1.1"%string, 8080) ∈ index r4)
       /\ (("1.1.1.1"%string, 8080) ∈ healthy r4).
Proof.
  exact (three_failed_probes_remove 1%Qc 1%Qc 1%Qc 1%Qc Samples.proxy_1111
           Samples.pool_S2 Samples.proxy_1111 eq_refl eq_refl eq_refl).
Defined.

(** The health checker keeps the pool's invariants: on a store whose
    healthy and dead sets are disjoint and inside the index, whose
    records are listed in the index, are counted and are filed under
    their own address, a probe, passed or failed, leaves a store with the
    same properties. *)
Theorem health_check_keeps_invariants now outcome p r :
  well_formed r -> keyed r ->
  let r' := (HealthChecker.check_single_proxy now outcome p r).1 in
  well_formed r' /\ keyed r' /\ pool_invariant r'.
Proof.
  intros Hw Hk. cbn zeta.
  assert (well_formed
            (HealthChecker.check_single_proxy now outcome p r).1
          /\ keyed (HealthChecker.check_single_proxy now outcome p r).1)
    as [Hw' Hk'].
  { destruct (HealthChecker.get_proxy (ip p) (port p) r) as [ex|] eqn:G.
    - assert ((ip ex, port ex) = (ip p, port p)) as Ha.
      { symmetry. by apply Hk. }
      destruct outcome as [lat|].
      + rewrite (check_pass_as_pool_op now lat p r ex G Ha). cbn [fst].
        split.
        * by apply (step_well_formed r (RecordSuccess now (ip p) (port p) lat)).
        * by apply (step_keyed (RecordSuccess now (ip p) (port p) lat)).
      + rewrite (check_fail_as_pool_ops now p r ex G Ha). cbn zeta. cbn [fst].
        pose proof (step_well_formed r (RecordFailure now (ip p) (port p))
                      Hw I) as Hw1.
        pose proof (step_keyed (RecordFailure now (ip p) (port p)) r Hk)
          as Hk1.
        cbn [step] in Hw1, Hk1. case_decide.
        * split.
          -- by apply (step_well_formed _ (Remove (ip p) (port p))).
          -- by apply (step_keyed (Remove (ip p) (port p))).
        * split.
          -- apply (step_well_formed _ (MarkDead (ip p) (port p)));
               [done|]. cbn.
             destruct Hw as (_ & _ & Hi & _).
             assert ((ip p, port p) ∈ index r) as Hin.
             { apply Hi. unfold HealthChecker.get_proxy, get in G.
               by rewrite G. }
             unfold record_failure.
             unfold HealthChecker.get_proxy in G. rewrite G.
             destruct r. case_bool_decide; cbn in *; done.
          -- by apply (step_keyed (MarkDead (ip p) (port p))).
    - by rewrite check_absent_changes_nothing_helper. }
  split; [done|]. split; [done|].
  destruct Hw' as (Hh & Hd & _ & Hc). split; [done|]. split; [done|].
  intros a q Hq. by apply (Hc a q).
Qed.

Lemma health_check_keeps_invariants_witness :
  let r' :=
    (HealthChecker.check_single_proxy 1%Qc HealthChecker.Fail
       Samples.proxy_1111 MoreSamples.pool_two).1 in
  well_formed r' /\ keyed r' /\ pool_invariant r'.
Proof.
  refine (health_check_keeps_invariants 1%Qc HealthChecker.Fail
            Samples.proxy_1111 MoreSamples.pool_two _ _).
  - apply reachable_well_formed, pool_two_reachable.
  - unfold MoreSamples.pool_two. repeat apply step_keyed.
    intros a p H. cbn in H. by rewrite lookup_empty in H.
Defined.

End HealthCheckerMoreFacts.
(** ** The rotation engine's endpoints *)

Section EngineFacts.
Import Pool Strategies Selecting PoolProps Ops Engine EngineProps.

(** [STRATEGY_MAP] files each strategy under its own [name]. *)
Lemma STRATEGY_MAP_name n s :
  dict_get n STRATEGY_MAP = Some s <-> name s = n.
Proof.
  split.
  - unfold STRATEGY_MAP. cbn [dict_get].
    repeat (case_decide; [intros [= <-]; assumption|]). done.
  - intros <-. by destruct s.
Qed.

Lemma STRATEGY_MAP_unknown n :
  dict_get n STRATEGY_MAP = None <-> forall s, name s <> n.
Proof.
  split.
  - intros E s Hs. apply STRATEGY_MAP_name in Hs. congruence.
  - intros H. destruct (dict_get n STRATEGY_MAP) as [s|] eqn:E; [|done].
    apply STRATEGY_MAP_name in E. by destruct (H s).
Qed.

Lemma STRATEGY_MAP_stands_for n :
  stands_for n (default PerRequestStrategy (dict_get n STRATEGY_MAP)).
Proof.
  destruct (dict_get n STRATEGY_MAP) as [s|] eqn:E; cbn.
  - left. by apply STRATEGY_MAP_name.
  - right. split; [|done]. by apply STRATEGY_MAP_unknown.
Qed.

Lemma served_by_chosen now rnd req e :
  served_by (chosen req e) now rnd req e.
Proof.
  unfold served_by, next_proxy, chosen. fold (context_of req e).
  destruct (truthy (req_target_domain req)) as [d|].
  - destruct (get_domain_override d e) as [o|].
    + destruct (nonempty o).
      * destruct (select _ now rnd (context_of req e) (pool e))
          as [[r [p|]]|x]; done.
      * destruct (select _ now rnd (context_of req e) (pool e))
          as [[r [p|]]|x]; done.
    + destruct (select _ now rnd (context_of req e) (pool e))
        as [[r [p|]]|x]; done.
  - destruct (select _ now rnd (context_of req e) (pool e))
      as [[r [p|]]|x]; done.
Qed.

(** [POST /strategy] and [GET /strategy] round trip.  A name that is not
    the [name] of one of the five strategies is refused with a 400 and
    nothing is written.  Otherwise the name is stored, the next
    selection uses the strategy of that name, [GET /strategy] reports
    the name, and reports the session TTL and the rotation interval of
    the request where it gives them and the former ones (300 and 30 when
    never set) where it does not; the pool, the domain overrides and the
    counters are not touched. *)
Theorem update_strategy_round_trip req e :
  match update_strategy req e with
  | (e', HTTPException code _) =>
      code = 400 /\ e' = e /\ forall s, name s <> su_strategy req
  | (e', Returned _) =>
      name (_get_strategy e') = su_strategy req
      /\ get_strategy e'
         = (su_strategy req,
            default (default 300 (config_session_ttl e))
                    (su_session_ttl req),
            default (default 30 (config_rotation_interval e))
                    (su_rotation_interval req))
      /\ pool e' = pool e
      /\ domain_overrides e' = domain_overrides e
      /\ stats e' = stats e
  end.
Proof.
  unfold update_strategy.
  destruct (dict_get (su_strategy req) STRATEGY_MAP) as [s|] eqn:E.
  - apply STRATEGY_MAP_name in E as Hn.
    assert (name (_get_strategy
                    (Engine (pool e) (Some (su_strategy req))
                       (config_session_ttl e) (config_rotation_interval e)
                       (domain_overrides e) (stats e)))
            = su_strategy req) as Hg.
    { unfold _get_strategy. cbn [rotation_strategy default from_option id].
      by rewrite E. }
    destruct (su_session_ttl req), (su_rotation_interval req);
      cbn; (split; [exact Hg|done]).
  - split; [done|]. split; [done|]. by apply STRATEGY_MAP_unknown.
Qed.

(** Without an override in force (no target domain, or none stored for
    it, or an empty one) [/next-proxy] is served by the strategy the
    stored global name stands for: the strategy of that name when it is
    one of the five names, and per-request when the key was never set or
    holds any other text (the start-up seed from the environment is not
    validated). *)
Theorem global_strategy_applies now rnd req e :
  match truthy (req_target_domain req) with
  | Some domain =>
      match get_domain_override domain e with
      | Some o => nonempty o = false
      | None => True
      end
  | None => True
  end ->
  exists s,
    served_by s now rnd req e
    /\ _get_strategy e = s
    /\ stands_for (default "per-request"%string (rotation_strategy e)) s.
Proof.
  intros H. exists (chosen req e).
  assert (chosen req e = _get_strategy e) as Hc.
  { unfold chosen. destruct (truthy (req_target_domain req)) as [d|]; [|done].
    destruct (get_domain_override d e) as [o|]; [|done]. by rewrite H. }
  split; [apply served_by_chosen|]. split; [done|]. rewrite Hc.
  unfold _get_strategy. apply STRATEGY_MAP_stands_for.
Qed.

Lemma global_strategy_applies_witness :
  exists s,
    served_by s 0%Qc Samples.some_random
      {| req_session_id := None; req_target_domain := None |}
      (Engine Samples.pool_S2 (Some "round-robin"%string) None None ∅ ∅)
    /\ _get_strategy
         (Engine Samples.pool_S2 (Some "round-robin"%string) None None ∅ ∅)
       = s
    /\ stands_for "round-robin" s.
Proof.
  exact (global_strategy_applies 0%Qc Samples.some_random
           {| req_session_id := None; req_target_domain := None |}
           (Engine Samples.pool_S2 (Some "round-robin"%string) None None
                   ∅ ∅) I).
Defined.

(** A domain override takes precedence over the global strategy: a
    request whose target domain has a stored, non-empty override is
    served by the strategy the override's name stands for (per-request
    when the override has no strategy or names none of the five),
    whatever the stored global name is. *)
Theorem domain_override_precedence now rnd req e domain o :
  truthy (req_target_domain req) = Some domain ->
  get_domain_override domain e = Some o ->
  nonempty o = true ->
  exists s,
    served_by s now rnd req e
    /\ stands_for (default "per-request"%string (ov_strategy o)) s
    /\ forall global,
         served_by s now rnd req
           (Engine (pool e) global (config_session_ttl e)
                   (config_rotation_interval e) (domain_overrides e)
                   (stats e)).
Proof.
  intros Hd Ho Hn.
  assert (forall e', get_domain_override domain e' = Some o ->
            chosen req e'
            = default PerRequestStrategy
                (dict_get (default "per-request"%string (ov_strategy o))
                          STRATEGY_MAP)) as Hc.
  { intros e' Ho'. unfold chosen. by rewrite Hd, Ho', Hn. }
  exists (chosen req e). split; [apply served_by_chosen|]. split.
  - rewrite (Hc e Ho). apply STRATEGY_MAP_stands_for.
  - intros global. rewrite (Hc e Ho).
    match goal with |- served_by _ _ _ _ ?e' =>
      rewrite <- (Hc e' Ho)
    end.
    apply served_by_chosen.
Qed.

Lemma domain_override_precedence_witness :
  exists s,
    served_by s 0%Qc Samples.some_random
      {| req_session_id := None;
         req_target_domain := Some "example.com"%string |}
      (Engine Samples.pool_S2 None None None
         {["example.com"%string := Override (Some "on-block"%string) None]}
         ∅)
    /\ stands_for "on-block" s
    /\ forall global,
         served_by s 0%Qc Samples.some_random
           {| req_session_id := None;
              req_target_domain := Some "example.com"%string |}
           (Engine Samples.pool_S2 global None None
              {["example.com"%string :=
                  Override (Some "on-block"%string) None]} ∅).
Proof.
  exact (domain_override_precedence 0%Qc Samples.some_random
           {| req_session_id := None;
              req_target_domain := Some "example.com"%string |}
           (Engine Samples.pool_S2 None None None
              {["example.com"%string :=
                  Override (Some "on-block"%string) None]} ∅)
           "example.com"%string (Override (Some "on-block"%string) None)
           eq_refl eq_refl eq_refl).
Defined.

(** The API server's overrides reach the engine.  After
    [add_domain_override], a request for that domain is served by the
    strategy the given name stands for; the name is not validated, so a
    name that is none of the five makes the domain per-request.  After
    [delete_domain_override] the request is served by the global
    strategy again. *)
Theorem api_override_round_trip now rnd req e body :
  truthy (req_target_domain req) = Some (ApiServer.do_domain body) ->
  let e1 := ApiServer.add_domain_override body e in
  let e2 := ApiServer.delete_domain_override (ApiServer.do_domain body) e1 in
  (exists s, served_by s now rnd req e1
             /\ stands_for (ApiServer.do_strategy body) s)
  /\ served_by (_get_strategy e) now rnd req e2
  /\ pool e2 = pool e.
Proof.
  intros Hd. cbn zeta. split; [|split; [|done]].
  - exists (chosen req (ApiServer.add_domain_override body e)).
    split; [apply served_by_chosen|].
    unfold chosen, get_domain_override, ApiServer.add_domain_override.
    rewrite Hd. cbn [domain_overrides]. rewrite lookup_insert_eq.
    cbn [nonempty ov_strategy]. apply STRATEGY_MAP_stands_for.
  - assert (chosen req
              (ApiServer.delete_domain_override (ApiServer.do_domain body)
                 (ApiServer.add_domain_override body e))
            = _get_strategy e) as <-; [|apply served_by_chosen].
    unfold chosen, get_domain_override, ApiServer.delete_domain_override,
      ApiServer.add_domain_override.
    rewrite Hd. cbn [domain_overrides]. by rewrite lookup_delete_eq.
Qed.

Lemma api_override_round_trip_witness :
  let req := {| req_session_id := None;
                req_target_domain := Some "example.com"%string |} in
  let body := {| ApiServer.do_domain := "example.com"%string;
                 ApiServer.do_strategy := "sticky"%string;
                 ApiServer.do_country := None |} in
  let e := Engine Samples.pool_S2 (Some "round-robin"%string) None None
                  ∅ ∅ in
  let e1 := ApiServer.add_domain_override body e in
  let e2 := ApiServer.delete_domain_override "example.com"%string e1 in
  (exists s, served_by s 0%Qc Samples.some_random req e1
             /\ stands_for "sticky" s)
  /\ served_by (_get_strategy e) 0%Qc Samples.some_random req e2
  /\ pool e2 = pool e.
Proof.
  exact (api_override_round_trip 0%Qc Samples.some_random
           {| req_session_id := None;
              req_target_domain := Some "example.com"%string |}
           (Engine Samples.pool_S2 (Some "round-robin"%string) None None
                   ∅ ∅)
           {| ApiServer.do_domain := "example.com"%string;
              ApiServer.do_strategy := "sticky"%string;
              ApiServer.do_country := None |} eq_refl).
Defined.



End EngineFacts.
(** ** The gateway's retry loop, attempt by attempt *)

Section GatewayMoreFacts.
Import Gateway Calls Trace.

Variable decode : string -> string.
Variable _extract_domain : string -> string.
Variables (method url : string) (hdrs : headers) (body : option string).
Variable io : Z -> attempt_io.

Abbreviation attempts :=
  (attempts decode _extract_domain method url hdrs body io).
Abbreviation handle_http_request :=
  (handle_http_request decode _extract_domain method url hdrs body io).
Abbreviation entry_of := (entry_of decode _extract_domain method url io).
Abbreviation verdict := (verdict decode).

Abbreviation query :=
  (GetNextProxy (dict_get "x-session-id" hdrs) (_extract_domain url)).
Abbreviation sent :=
  (filter (fun kv : string * string => str_lower kv.1 ∉ hop_by_hop) hdrs).

(** One turn of the loop. *)
Lemma attempts_cons a todo calls l info :
  next_proxy (io a) = Some info ->
  attempts (a :: todo) calls l
  = let entry := entry_of a info in
    let done :=
      calls ++ [query;
                Forward (pi_ip info, pi_port info) method url sent body;
                LogRequest entry] in
    let l' := log_request_to_redis entry l in
    if verdict (forwarded (io a)) then
      let done :=
        done ++ [MarkProxyBlocked (pi_ip info) (pi_port info)
                                  (_extract_domain url)] in
      if decide (a < MAX_RETRIES) then attempts todo done l'
      else Outcome BlockedLastAttempt (answer (forwarded (io a))) done l'
    else Outcome Success (answer (forwarded (io a))) done l'.
Proof.
  intros Hinfo. cbn [Gateway.attempts]. rewrite Hinfo. cbn zeta.
  unfold Trace.entry_of.
  destruct (forwarded (io a)) as [resp| |msg];
    cbn [Trace.verdict Trace.answer Trace.error_of fst snd].
  - destruct (is_blocked _ _ _); rewrite <- ?app_assoc; reflexivity.
  - rewrite <- ?app_assoc. reflexivity.
  - rewrite <- ?app_assoc. reflexivity.
Qed.

Lemma attempts_none a todo calls l :
  next_proxy (io a) = None ->
  attempts (a :: todo) calls l
  = Outcome NoHealthyProxies
            (502, [], error_body "no healthy proxies available")
            (calls ++ [query]) l.
Proof. intros H. cbn [Gateway.attempts]. by rewrite H. Qed.

Lemma push_all_snoc entries entry l :
  push_all (entries ++ [entry]) l
  = log_request_to_redis entry (push_all entries l).
Proof. unfold push_all. by rewrite foldl_app. Qed.

Lemma push_all_spec entries l :
  request_log (push_all entries l)
  = match entries with
    | [] => request_log l
    | _ => take 500 (reverse entries ++ request_log l)
    end
  /\ live_requests (push_all entries l) = live_requests l ++ entries.
Proof.
  induction entries as [|e es [IH1 IH2]] using rev_ind.
  - cbn. by rewrite app_nil_r.
  - rewrite push_all_snoc. unfold log_request_to_redis.
    cbn [request_log live_requests]. rewrite IH1, IH2.
    split; [|by rewrite app_assoc].
    rewrite reverse_app. cbn [reverse app].
    destruct es as [|e' es']; [done|].
    cbn [app]. destruct (e' :: es') eqn:E; [done|]. rewrite <- E.
    change (reverse [e]) with [e]. cbn [app].
    change 500%nat with (S 499). cbn [take]. f_equal.
    by rewrite take_take.
Qed.

Lemma attempts_trace todo calls l :
  exists new,
    Gateway.calls (attempts todo calls l) = calls ++ new
    /\ log_attempt <$> log_calls new = take (length (log_calls new)) todo
    /\ mark_block_calls new = omap marked (log_calls new)
    /\ store (attempts todo calls l) = push_all (log_calls new) l
    /\ forwarded_headers new = replicate (length (log_calls new)) sent
    /\ Forall (fun entry => log_blocked entry = true)
              (take (length (log_calls new) - 1) (log_calls new))
    /\ match returned_at (attempts todo calls l) with
       | Success =>
           exists entry,
             last (log_calls new) = Some entry
             /\ log_blocked entry = false
             /\ (reply (attempts todo calls l)).1.1 = log_status entry
       | BlockedLastAttempt =>
           exists entry,
             last (log_calls new) = Some entry
             /\ log_blocked entry = true
             /\ (reply (attempts todo calls l)).1.1 = log_status entry
             /\ ~ log_attempt entry < MAX_RETRIES
       | NoHealthyProxies | RetriesExhausted =>
           Forall (fun entry => log_blocked entry = true) (log_calls new)
           /\ (reply (attempts todo calls l)).1.1 = 502
       end.
Proof.
  revert calls l. induction todo as [|a todo IH]; intros calls l.
  { exists []. cbn. rewrite app_nil_r. repeat split; constructor. }
  destruct (next_proxy (io a)) as [info|] eqn:Hinfo.
  2:{ rewrite (attempts_none a todo calls l Hinfo). exists [query]. cbn.
      repeat split; constructor. }
  rewrite (attempts_cons a todo calls l info Hinfo). cbn zeta.
  destruct (verdict (forwarded (io a))) eqn:Hv.
  - case_decide as Hlt.
    + match goal with |- context [attempts todo ?c ?l'] =>
        destruct (IH c l') as (new & Hc & Ha & Hm & Hs & Hf & Hb & Hr)
      end.
      eexists ([_; _; _; _] ++ new). split.
      { rewrite Hc. rewrite <- !app_assoc. reflexivity. }
      assert (log_blocked (entry_of a info) = true) as Hen by exact Hv.
      change (log_calls ([_; _; _; _] ++ new))
        with (entry_of a info :: log_calls new).
      change (mark_block_calls ([_; _; _; _] ++ new))
        with ((pi_ip info, pi_port info, _extract_domain url)
                :: mark_block_calls new).
      change (forwarded_headers ([_; _; _; _] ++ new))
        with (sent :: forwarded_headers new).
      set (es := log_calls new) in *.
      split; [cbn; by rewrite Ha|].
      assert (marked (entry_of a info)
              = Some (pi_ip info, pi_port info, _extract_domain url))
        as Hmk by (unfold marked; by rewrite Hen).
      split; [cbn [omap list_omap]; by rewrite Hmk, Hm|].
      split; [exact Hs|].
      split; [cbn; by rewrite Hf|].
      split.
      { cbn [length]. rewrite Nat.sub_succ, Nat.sub_0_r.
        destruct es as [|e' es']; [constructor|].
        cbn [length take]. constructor; [exact Hen|].
        cbn [length] in Hb. by rewrite Nat.sub_succ, Nat.sub_0_r in Hb. }
      destruct (returned_at _).
      * destruct Hr as [Hr ?]. split; [by constructor|done].
      * destruct Hr as (entry & Hl & ?). exists entry.
        split; [|done]. destruct es; [done|]. exact Hl.
      * destruct Hr as (entry & Hl & ?). exists entry.
        split; [|done]. destruct es; [done|]. exact Hl.
      * destruct Hr as [Hr ?]. split; [by constructor|done].
    + eexists [_; _; _; _]. split; [by rewrite <- !app_assoc|].
      cbn. unfold marked. cbn. rewrite Hv.
      repeat split; try constructor. by eexists.
  - eexists [_; _; _]. split; [reflexivity|].
    cbn. unfold marked. cbn. rewrite Hv.
    repeat split; try constructor. by eexists.
Qed.


(** What one call leaves in the live log and sends upstream.  The
    entries are published on the live topic in the order of the
    attempts; when there is one, the bounded list holds them newest
    first in front of the older ones, cut to 500 (with none, the list
    is not touched, so it is not cut either).  Each attempt that gets a
    proxy forwards the same headers: those of the request, in order,
    without the ones whose lower-cased name is [host],
    [proxy-authorization], [proxy-connection] or [x-session-id]. *)
Theorem handle_http_request_live_log l :
  let out := handle_http_request l in
  let logged := log_calls (calls out) in
  live_requests (store out) = live_requests l ++ logged
  /\ request_log (store out)
     = match logged with
       | [] => request_log l
       | _ => take 500 (reverse logged ++ request_log l)
       end
  /\ forwarded_headers (calls out)
     = replicate (length logged)
         (filter (fun kv : string * string => str_lower kv.1 ∉ hop_by_hop)
                 hdrs)
  /\ forall h k v,
       h ∈ forwarded_headers (calls out) -> (k, v) ∈ h ->
       (k, v) ∈ hdrs
       /\ str_lower k <> "host"%string
       /\ str_lower k <> "proxy-authorization"%string
       /\ str_lower k <> "proxy-connection"%string
       /\ str_lower k <> "x-session-id"%string.
Proof.
  cbn zeta. unfold Gateway.handle_http_request.
  destruct (attempts_trace (range 1 (MAX_RETRIES + 1)) [] l)
    as (new & Hc & _ & _ & Hs & Hf & _ & _).
  cbn [app] in Hc. rewrite Hc, Hs.
  destruct (push_all_spec (log_calls new) l) as [H1 H2].
  split; [exact H2|]. split; [exact H1|]. split; [exact Hf|].
  intros h k v Hh Hkv. rewrite Hf in Hh.
  apply elem_of_replicate in Hh as [-> _].
  apply list_elem_of_filter in Hkv as [Hk Hin]. cbn in Hk.
  split; [exact Hin|]. unfold hop_by_hop in Hk. set_solver.
Qed.

Lemma marked_entry_of a info :
  marked (entry_of a info)
  = if verdict (forwarded (io a))
    then Some (pi_ip info, pi_port info, _extract_domain url)
    else None.
Proof. reflexivity. Qed.

#[local] Arguments Trace.verdict : simpl never.
#[local] Arguments Trace.answer : simpl never.

(** The handler returns the answer of the first attempt that is not
    blocked, and the answer of the third attempt when all three are:
    when attempts 1 to [k] get a proxy, those before [k] are blocked
    (by a blocked response, a timeout or any other exception) and
    attempt [k] is not blocked or is the third, the client gets the
    response of attempt [k], or the 502 with an empty body when that
    attempt raised; the log has the entries of attempts 1 to [k], the
    rotation engine was asked [k] times and was notified of each
    blocked attempt. *)
Theorem handle_http_request_stops_at l k info :
  1 ≤ k ≤ 3 ->
  (forall a, 1 ≤ a ≤ k -> next_proxy (io a) = Some (info a)) ->
  (forall a, 1 ≤ a < k -> verdict (forwarded (io a)) = true) ->
  (k < 3 -> verdict (forwarded (io k)) = false) ->
  let out := handle_http_request l in
  let entries := (fun a => entry_of a (info a)) <$> range 1 (k + 1) in
  reply out = answer (forwarded (io k))
  /\ returned_at out
     = (if verdict (forwarded (io k)) then BlockedLastAttempt else Success)
  /\ log_calls (calls out) = entries
  /\ mark_block_calls (calls out) = omap marked entries
  /\ next_proxy_calls (calls out)
     = replicate (Z.to_nat k)
         (dict_get "x-session-id" hdrs, _extract_domain url).
Proof.
  intros Hk Hinfo Hblocked Hlast. cbn zeta.
  unfold Gateway.handle_http_request.
  change (range 1 (MAX_RETRIES + 1)) with [1; 2; 3].
  assert (k = 1 \/ k = 2 \/ k = 3) as [->|[->| ->]] by lia.
  - change (range 1 (1 + 1)) with [1].
    rewrite (attempts_cons 1 _ _ _ (info 1)) by (apply Hinfo; lia).
    cbn zeta. rewrite Hlast by lia. cbn.
    by rewrite marked_entry_of, Hlast by lia.
  - change (range 1 (2 + 1)) with [1; 2].
    rewrite (attempts_cons 1 _ _ _ (info 1)) by (apply Hinfo; lia).
    cbn zeta. rewrite (Hblocked 1) by lia.
    rewrite (decide_True (P := 1 < MAX_RETRIES))
      by (unfold MAX_RETRIES; lia).
    rewrite (attempts_cons 2 _ _ _ (info 2)) by (apply Hinfo; lia).
    cbn zeta. rewrite Hlast by lia. cbn.
    by rewrite !marked_entry_of, Hlast, (Hblocked 1) by lia.
  - change (range 1 (3 + 1)) with [1; 2; 3].
    rewrite (attempts_cons 1 _ _ _ (info 1)) by (apply Hinfo; lia).
    cbn zeta. rewrite (Hblocked 1) by lia.
    rewrite (decide_True (P := 1 < MAX_RETRIES))
      by (unfold MAX_RETRIES; lia).
    rewrite (attempts_cons 2 _ _ _ (info 2)) by (apply Hinfo; lia).
    cbn zeta. rewrite (Hblocked 2) by lia.
    rewrite (decide_True (P := 2 < MAX_RETRIES))
      by (unfold MAX_RETRIES; lia).
    rewrite (attempts_cons 3 _ _ _ (info 3)) by (apply Hinfo; lia).
    cbn zeta.
    rewrite (decide_False (P := 3 < MAX_RETRIES))
      by (unfold MAX_RETRIES; lia).
    destruct (verdict (forwarded (io 3))) eqn:Hv; cbn;
      by rewrite !marked_entry_of, ?Hv, (Hblocked 1), (Hblocked 2) by lia.
Qed.

(** The handler gives up as soon as the rotation engine has no proxy:
    when the attempts before [k] each got a proxy and were blocked and
    the engine has none at attempt [k], the client gets the 502 "no
    healthy proxies available"; nothing is forwarded or logged at
    attempt [k], and the earlier attempts were each forwarded, logged
    and reported to [mark-block]. *)
Theorem handle_http_request_without_proxy l k info :
  1 ≤ k ≤ 3 ->
  (forall a, 1 ≤ a < k ->
             next_proxy (io a) = Some (info a)
             /\ verdict (forwarded (io a)) = true) ->
  next_proxy (io k) = None ->
  let out := handle_http_request l in
  let entries := (fun a => entry_of a (info a)) <$> range 1 k in
  reply out = (502, [], error_body "no healthy proxies available")
  /\ returned_at out = NoHealthyProxies
  /\ log_calls (calls out) = entries
  /\ mark_block_calls (calls out)
     = (fun a => (pi_ip (info a), pi_port (info a), _extract_domain url))
         <$> range 1 k
  /\ length (forwarded_headers (calls out)) = Z.to_nat (k - 1)
  /\ length (next_proxy_calls (calls out)) = Z.to_nat k.
Proof.
  intros Hk Hbefore Hnone. cbn zeta.
  unfold Gateway.handle_http_request.
  change (range 1 (MAX_RETRIES + 1)) with [1; 2; 3].
  assert (k = 1 \/ k = 2 \/ k = 3) as [->|[->| ->]] by lia.
  - rewrite (attempts_none 1 _ _ _ Hnone). done.
  - change (range 1 2) with [1].
    destruct (Hbefore 1) as [H1 V1]; [lia|].
    rewrite (attempts_cons 1 _ _ _ (info 1) H1). cbn zeta. rewrite V1.
    rewrite (decide_True (P := 1 < MAX_RETRIES))
      by (unfold MAX_RETRIES; lia).
    rewrite (attempts_none 2 _ _ _ Hnone). done.
  - change (range 1 3) with [1; 2].
    destruct (Hbefore 1) as [H1 V1]; [lia|].
    destruct (Hbefore 2) as [H2 V2]; [lia|].
    rewrite (attempts_cons 1 _ _ _ (info 1) H1). cbn zeta. rewrite V1.
    rewrite (decide_True (P := 1 < MAX_RETRIES))
      by (unfold MAX_RETRIES; lia).
    rewrite (attempts_cons 2 _ _ _ (info 2) H2). cbn zeta. rewrite V2.
    rewrite (decide_True (P := 2 < MAX_RETRIES))
      by (unfold MAX_RETRIES; lia).
    rewrite (attempts_none 3 _ _ _ Hnone). done.
Qed.

End GatewayMoreFacts.

Lemma handle_http_request_stops_at_witness :
  let out :=
    Gateway.handle_http_request (fun s => s) (fun _ => "example.com"%string)
      "GET" "http://example.com/" TrafficSamples.request_headers None
      TrafficSamples.blocked_then_fine TrafficSamples.no_traffic in
  let entries :=
    (fun a => Trace.entry_of (fun s => s) (fun _ => "example.com"%string)
                "GET" "http://example.com/"
                TrafficSamples.blocked_then_fine a
                (TrafficSamples.handed_out a))
      <$> Gateway.range 1 (2 + 1) in
  Gateway.reply out
  = Trace.answer (Gateway.forwarded (TrafficSamples.blocked_then_fine 2))
  /\ Gateway.returned_at out
     = (if Trace.verdict (fun s => s)
             (Gateway.forwarded (TrafficSamples.blocked_then_fine 2))
        then Gateway.BlockedLastAttempt else Gateway.Success)
  /\ Calls.log_calls (Gateway.calls out) = entries
  /\ Calls.mark_block_calls (Gateway.calls out)
     = omap Trace.marked entries
  /\ Trace.next_proxy_calls (Gateway.calls out)
     = replicate (Z.to_nat 2)
         (Gateway.dict_get "x-session-id" TrafficSamples.request_headers,
          "example.com"%string).
Proof.
  refine (handle_http_request_stops_at
            (fun s => s) (fun _ => "example.com"%string)
            "GET" "http://example.com/" TrafficSamples.request_headers None
            TrafficSamples.blocked_then_fine TrafficSamples.no_traffic
            2 TrafficSamples.handed_out _ _ _ _).
  - lia.
  - intros a Ha. assert (a = 1 \/ a = 2) as [->| ->] by lia; reflexivity.
  - intros a Ha. assert (a = 1) as -> by lia. vm_compute. reflexivity.
  - intros _. vm_compute. reflexivity.
Defined.

Lemma handle_http_request_without_proxy_witness :
  let out :=
    Gateway.handle_http_request (fun s => s) (fun _ => "example.com"%string)
      "GET" "http://example.com/" TrafficSamples.request_headers None
      TrafficSamples.timeout_then_nothing TrafficSamples.no_traffic in
  let entries :=
    (fun a => Trace.entry_of (fun s => s) (fun _ => "example.com"%string)
                "GET" "http://example.com/"
                TrafficSamples.timeout_then_nothing a
                (TrafficSamples.handed_out a))
      <$> Gateway.range 1 2 in
  Gateway.reply out
  = (502, [], Gateway.error_body "no healthy proxies available")
  /\ Gateway.returned_at out = Gateway.NoHealthyProxies
  /\ Calls.log_calls (Gateway.calls out) = entries
  /\ Calls.mark_block_calls (Gateway.calls out)
     = (fun a => (Gateway.pi_ip (TrafficSamples.handed_out a),
                  Gateway.pi_port (TrafficSamples.handed_out a),
                  "example.com"%string))
         <$> Gateway.range 1 2
  /\ length (Trace.forwarded_headers (Gateway.calls out))
     = Z.to_nat (2 - 1)
  /\ length (Trace.next_proxy_calls (Gateway.calls out)) = Z.to_nat 2.
Proof.
  refine (handle_http_request_without_proxy
            (fun s => s) (fun _ => "example.com"%string)
            "GET" "http://example.com/" TrafficSamples.request_headers None
            TrafficSamples.timeout_then_nothing TrafficSamples.no_traffic
            2 TrafficSamples.handed_out _ _ _).
  - lia.
  - intros a Ha. assert (a = 1) as -> by lia. split; reflexivity.
  - reflexivity.
Defined.
(** ** The scraper: merging and storing *)

Section ScraperFacts.
Import ScraperProps Pool PoolProps.

Lemma first_with_cons a p l :
  first_with a (p :: l)
  = if decide (address p = a) then Some p else first_with a l.
Proof.
  unfold first_with. cbn [list_find]. case_decide; [done|].
  by destruct (list_find _ l) as [[i q]|].
Qed.

Lemma first_with_None a l :
  first_with a l = None <-> a ∉ address <$> l.
Proof.
  induction l as [|p l IH]; [cbn; split; [set_solver|done]|].
  rewrite first_with_cons, fmap_cons, not_elem_of_cons.
  case_decide as E; [|naive_solver]. split; [done|].
  intros [H _]. by destruct H.
Qed.

Lemma dedupe_spec all_proxies seen unique :
  exists added,
    Scraper.dedupe all_proxies seen unique = unique ++ added
    /\ added `sublist_of` all_proxies
    /\ NoDup (address <$> added)
    /\ forall a, first_with a added
                 = if decide (a ∈ seen) then None
                   else first_with a all_proxies.
Proof.
  revert seen unique.
  induction all_proxies as [|p all_proxies IH]; intros seen unique.
  { exists []. cbn. rewrite app_nil_r. split; [done|]. split; [done|].
    split; [constructor|]. intros a. by case_decide. }
  cbn [Scraper.dedupe]. fold (address p). case_decide as Hseen.
  - destruct (IH ({[address p]} ∪ seen) (unique ++ [p]))
      as (added & -> & Hsub & Hnd & Hfirst).
    exists (p :: added). split; [by rewrite <- app_assoc|].
    split; [by apply sublist_skip|]. split.
    + rewrite fmap_cons. constructor; [|done].
      apply first_with_None. rewrite Hfirst.
      rewrite decide_True; [done|set_solver].
    + intros a. rewrite !first_with_cons. case_decide as Ea.
      * subst a. by rewrite decide_False.
      * rewrite Hfirst.
        destruct (decide (a ∈ seen)).
        -- rewrite decide_True; [done|set_solver].
        -- rewrite decide_False; [done|set_solver].
  - destruct (IH seen unique) as (added & -> & Hsub & Hnd & Hfirst).
    exists added. split; [done|]. split; [by apply sublist_cons|].
    split; [done|]. intros a. rewrite Hfirst, first_with_cons.
    case_decide; [done|]. case_decide as Ea; [|done].
    subst a. done.
Qed.

(** The merged list keeps the first occurrence of every address: the
    result has no two records with the same [(ip, port)], keeps the order
    of the sources, and for every address holds the record that comes
    first with it in the raw list (and none when the raw list has
    none). *)
Theorem dedupe_keeps_first all_proxies :
  let unique := Scraper.dedupe all_proxies ∅ [] in
  NoDup (address <$> unique)
  /\ unique `sublist_of` all_proxies
  /\ (length unique <= length all_proxies)%nat
  /\ forall a, first_with a unique = first_with a all_proxies.
Proof.
  cbn zeta.
  destruct (dedupe_spec all_proxies ∅ []) as (added & -> & Hsub & Hnd & Hf).
  cbn [app]. split; [done|]. split; [done|].
  split; [by apply sublist_length|].
  intros a. rewrite Hf. by rewrite decide_False by set_solver.
Qed.

Lemma store_pipeline_cons p unique r :
  Scraper.execute (Scraper.store_pipeline (p :: unique)) r
  = Scraper.execute (Scraper.store_pipeline unique)
      (sadd POOL_INDEX_KEY (address p)
         (Scraper.run_command (Scraper.CmdSetnx (address p) p) r)).
Proof. reflexivity. Qed.

Lemma store_spec unique r :
  let r' := Scraper.execute (Scraper.store_pipeline unique) r in
  (forall a, proxies r' !! a
             = match proxies r !! a with
               | Some old => Some old
               | None => first_with a unique
               end)
  /\ index r' = index r ∪ list_to_set (address <$> unique)
  /\ dead r' = dead r /\ healthy r' = healthy r
  /\ sessions r' = sessions r /\ rr_index r' = rr_index r /\ cfg r' = cfg r.
Proof.
  cbn zeta. revert r. induction unique as [|p unique IH]; intros r.
  { cbn. split; [intros a; by destruct (proxies r !! a)|].
    split; [set_solver|done]. }
  rewrite store_pipeline_cons.
  set (setnx := Scraper.run_command (Scraper.CmdSetnx (address p) p)).
  destruct (IH (sadd POOL_INDEX_KEY (address p) (setnx r)))
    as (Hp & Hi & Hd & Hh & Hs & Hr & Hc).
  assert (forall r0, index (setnx r0) = index r0
                     /\ dead (setnx r0) = dead r0
                     /\ healthy (setnx r0) = healthy r0
                     /\ sessions (setnx r0) = sessions r0
                     /\ rr_index (setnx r0) = rr_index r0
                     /\ cfg (setnx r0) = cfg r0) as Hsame.
  { intros r0. unfold setnx, Scraper.run_command.
    by destruct (get (address p) r0). }
  destruct (Hsame r) as (Si & Sd & Sh & Ss & Sr & Sc).
  split.
  - intros a. rewrite Hp. cbn [sadd with_set proxies].
    rewrite first_with_cons. unfold setnx. cbn [Scraper.run_command].
    unfold get, set.
    destruct (proxies r !! address p) as [old|] eqn:E.
    + case_decide as Ea; [subst a; by rewrite E|done].
    + cbn [proxies]. case_decide as Ea.
      * subst a. by rewrite lookup_insert_eq, E.
      * by rewrite lookup_insert_ne.
  - rewrite Hi, Hd, Hh, Hs, Hr, Hc. cbn [sadd with_set index dead healthy
      sessions rr_index cfg]. rewrite Si, Sd, Sh, Ss, Sr, Sc.
    split; [|done]. rewrite fmap_cons. cbn [list_to_set]. set_solver.
Qed.

(** Storing a scrape never overwrites: a record the pool already has is
    kept as it is, with its counters and its score; an address the pool
    does not have gets the first record scraped for it.  Every scraped
    address joins the index; the healthy set and the dead set are not
    touched, so a new proxy is in neither of them; and a pool whose
    records are filed under their own address stays so. *)
Theorem scrape_keeps_existing all_proxies r :
  let r' :=
    Scraper.execute
      (Scraper.store_pipeline (Scraper.dedupe all_proxies ∅ [])) r in
  (forall a, proxies r' !! a
             = match proxies r !! a with
               | Some old => Some old
               | None => first_with a all_proxies
               end)
  /\ index r' = index r ∪ list_to_set (address <$> all_proxies)
  /\ dead r' = dead r /\ healthy r' = healthy r
  /\ (keyed r -> keyed r').
Proof.
  cbn zeta.
  destruct (store_spec (Scraper.dedupe all_proxies ∅ []) r)
    as (Hp & Hi & Hd & Hh & _).
  destruct (dedupe_spec all_proxies ∅ []) as (added & Ha & Hsub & Hnd & Hf).
  cbn [app] in Ha. rewrite Ha in *.
  assert (forall a, first_with a added = first_with a all_proxies) as Hf'.
  { intros a. rewrite Hf. by rewrite decide_False by set_solver. }
  split; [|split; [|split; [done|split; [done|]]]].
  - intros a. rewrite Hp. by rewrite Hf'.
  - rewrite Hi. f_equal. apply set_eq. intros a.
    rewrite !elem_of_list_to_set.
    pose proof (first_with_None a added) as H1.
    pose proof (first_with_None a all_proxies) as H2.
    rewrite Hf' in H1.
    destruct (decide (a ∈ address <$> added)),
      (decide (a ∈ address <$> all_proxies)); naive_solver.
  - intros Hk a p. rewrite Hp, Hf'.
    destruct (proxies r !! a) as [old|] eqn:E.
    + intros [= <-]. by apply Hk.
    + unfold first_with. intros H.
      apply fmap_Some in H as ([i q] & H & ->).
      apply list_find_Some in H as (_ & H & _). by symmetry.
Qed.

End ScraperFacts.
(** ** The health checker: a pass over the pool *)

Section ChecksFacts.
Import ScraperProps ChecksProps Pool PoolProps Ops.


Lemma same_at_refl a r : same_at a r r.
Proof. done. Qed.






End ChecksFacts.
(** ** The scraper: parsing an address line *)

Section ParseFacts.
Import Pool Re Parse ParseProps.






(** *** What each piece of the pattern matches *)












(** *** The pattern matches in one way at most *)




(** *** Stripping *)






End ParseFacts.
